(** * The 16550a UART driver of xv6-k210 (kernel/uart.c)

    A shallow embedding of the driver: the file-scope globals
    ([uart_tx_buf], [uart_tx_w], [uart_tx_r], [panicked]) and the device
    behind the memory-mapped registers form an explicit state; every C
    function is a computation in a small state-and-outcome monad; every
    [while(1)] loop is a [Fixpoint] over a number of iterations (fuel).
    What the driver does to the outside world (register accesses, array
    accesses, lock operations, sleep and wakeup, calls of [consoleintr])
    is recorded, in program order, in a trace. *)

From Stdlib Require Import ZArith Lia.
From stdpp Require Import base tactics option list.

Local Open Scope Z_scope.

(** ** Constants of uart.c *)

Definition RHR : Z := 0.
Definition THR : Z := 0.
Definition IER : Z := 1.
Definition IER_TX_ENABLE : Z := Z.shiftl 1 0.
Definition IER_RX_ENABLE : Z := Z.shiftl 1 1.
Definition FCR : Z := 2.
Definition IIR : Z := 2.
Definition UART_IIR_BSY : Z := 0x07.
Definition LCR : Z := 3.
Definition LCR_EIGHT_BITS : Z := Z.shiftl 3 0.
Definition LSR : Z := 5.
Definition LSR_RX_READY : Z := Z.shiftl 1 0.
Definition LSR_TX_IDLE : Z := Z.shiftl 1 5.
Definition USR : Z := 0x1f.
Definition UART_TX_BUF_SIZE : Z := 32.

(** ** C integer types *)

(** Conversion to [unsigned char]: the value modulo 2^8.  The registers are
    accessed through [volatile unsigned char *]; [uart_tx_buf] is an array
    of [char], which the RISC-V ABI makes unsigned. *)
Definition to_uchar (z : Z) : Z := z mod 256.

(** Arithmetic on [int] (32 bits, two's complement), wrap-around written
    out. *)
Definition to_int (z : Z) : Z := (z + 2 ^ 31) mod 2 ^ 32 - 2 ^ 31.

(** The truth value of a C scalar used as a condition. *)
Definition nonzero (z : Z) : bool := negb (z =? 0).

(** ** The device behind the registers

    The interrupt-enable, line-control and FIFO-control registers hold what
    was last written to them.  [rx_fifo] are the received bytes that have
    not been read from the receive holding register yet, oldest first: the
    data-ready bit of the line status register is set exactly when there is
    one, and a read of RHR consumes the oldest.  The other bits of the line
    status register and the interrupt identification register are inputs
    from the outside: the n-th read of LSR sees [lsr_in n], the n-th read
    of IIR sees [iir_in n]. *)
Record device := Device {
  ier : Z;
  lcr : Z;
  fcr : Z;
  rx_fifo : list Z;
  lsr_in : nat → Z;
  lsr_n : nat;
  iir_in : nat → Z;
  iir_n : nat
}.

Definition lsr_value (d : device) : Z :=
  Z.lor (Z.ldiff (lsr_in d (lsr_n d)) LSR_RX_READY)
        (match rx_fifo d with [] => 0 | _ :: _ => LSR_RX_READY end).

(** A read of the register at offset [reg]: the value and the device
    afterwards.  Offset 0 is RHR and offset 2 is IIR when read. *)
Definition dev_read (reg : Z) (d : device) : Z * device :=
  if reg =? RHR then
    match rx_fifo d with
    | [] => (0, d)
    | b :: rest =>
        (b, Device (ier d) (lcr d) (fcr d) rest
                   (lsr_in d) (lsr_n d) (iir_in d) (iir_n d))
    end
  else if reg =? IER then (ier d, d)
  else if reg =? IIR then
    (iir_in d (iir_n d),
     Device (ier d) (lcr d) (fcr d) (rx_fifo d)
            (lsr_in d) (lsr_n d) (iir_in d) (S (iir_n d)))
  else if reg =? LCR then (lcr d, d)
  else if reg =? LSR then
    (lsr_value d,
     Device (ier d) (lcr d) (fcr d) (rx_fifo d)
            (lsr_in d) (S (lsr_n d)) (iir_in d) (iir_n d))
  else (0, d).

(** A write of [v] to the register at offset [reg].  Offset 0 is THR and
    offset 2 is FCR when written; a byte written to THR goes out on the
    line and is seen in the trace only. *)
Definition dev_write (reg v : Z) (d : device) : device :=
  if reg =? IER then
    Device v (lcr d) (fcr d) (rx_fifo d) (lsr_in d) (lsr_n d) (iir_in d) (iir_n d)
  else if reg =? FCR then
    Device (ier d) (lcr d) v (rx_fifo d) (lsr_in d) (lsr_n d) (iir_in d) (iir_n d)
  else if reg =? LCR then
    Device (ier d) v (fcr d) (rx_fifo d) (lsr_in d) (lsr_n d) (iir_in d) (iir_n d)
  else d.

(** ** Driver state and trace *)

Inductive event :=
| EvRead (reg v : Z)        (* ReadReg(reg) returned v *)
| EvWrite (reg v : Z)       (* WriteReg(reg, v) *)
| EvStore (i v : Z)         (* uart_tx_buf[i] = v *)
| EvLoad (i v : Z)          (* uart_tx_buf[i] was read and held v *)
| EvInitLock                (* initlock(&uart_tx_lock, "uart") *)
| EvAcquire                 (* acquire(&uart_tx_lock) *)
| EvRelease                 (* release(&uart_tx_lock) *)
| EvSleep                   (* sleep(&uart_tx_r, &uart_tx_lock) *)
| EvWakeup                  (* wakeup(&uart_tx_r) *)
| EvPushOff                 (* push_off() *)
| EvPopOff                  (* pop_off() *)
| EvConsoleIntr (c : Z).    (* consoleintr(c) *)

Record state := State {
  uart_tx_buf : list Z;
  uart_tx_w : Z;
  uart_tx_r : Z;
  panicked : Z;
  dev : device;
  trace : list event
}.

(** How a call ends.  [Blocked]: the caller is suspended in [sleep] and the
    call continues when it is woken.  [OutOfBounds i]: the call accessed
    [uart_tx_buf[i]] with [i] outside the array, after which C gives it no
    meaning.  [Diverged]: the call is still inside a loop after the given
    number of iterations. *)
Inductive result (A : Type) :=
| Ret (a : A) (s : state)
| Blocked (s : state)
| OutOfBounds (i : Z) (s : state)
| Diverged (s : state).
Arguments Ret {A} a s.
Arguments Blocked {A} s.
Arguments OutOfBounds {A} i s.
Arguments Diverged {A} s.

Definition state_of {A} (r : result A) : state :=
  match r with
  | Ret _ s | Blocked s | OutOfBounds _ s | Diverged s => s
  end.

Definition M (A : Type) : Type := state → result A.

Definition M_ret {A} (a : A) : M A := λ s, Ret a s.

Definition M_bind {A B} (f : A → M B) (m : M A) : M B :=
  λ s, match m s with
       | Ret a s' => f a s'
       | Blocked s' => Blocked s'
       | OutOfBounds i s' => OutOfBounds i s'
       | Diverged s' => Diverged s'
       end.

#[global] Instance M_mret : MRet M := @M_ret.
#[global] Instance M_mbind : MBind M := @M_bind.

Definition emit (e : event) : M unit := λ s,
  Ret tt (State (uart_tx_buf s) (uart_tx_w s) (uart_tx_r s) (panicked s)
                (dev s) (trace s ++ [e])).

Definition get {A} (f : state → A) : M A := λ s, Ret (f s) s.

Definition set_w (w : Z) : M unit := λ s,
  Ret tt (State (uart_tx_buf s) w (uart_tx_r s) (panicked s) (dev s) (trace s)).

Definition set_r (r : Z) : M unit := λ s,
  Ret tt (State (uart_tx_buf s) (uart_tx_w s) r (panicked s) (dev s) (trace s)).

(** [ReadReg(reg)]: a read through [volatile unsigned char *]. *)
Definition ReadReg (reg : Z) : M Z := λ s,
  let '(v, d) := dev_read reg (dev s) in
  Ret (to_uchar v)
      (State (uart_tx_buf s) (uart_tx_w s) (uart_tx_r s) (panicked s) d
             (trace s ++ [EvRead reg (to_uchar v)])).

(** [WriteReg(reg, v)]: [v] is converted to [unsigned char]. *)
Definition WriteReg (reg v : Z) : M unit := λ s,
  Ret tt
      (State (uart_tx_buf s) (uart_tx_w s) (uart_tx_r s) (panicked s)
             (dev_write reg (to_uchar v) (dev s))
             (trace s ++ [EvWrite reg (to_uchar v)])).

Definition in_buf (i : Z) : bool := (0 <=? i) && (i <? UART_TX_BUF_SIZE).

(** [uart_tx_buf[i] = c] *)
Definition buf_store (i c : Z) : M unit := λ s,
  if in_buf i then
    Ret tt (State (<[Z.to_nat i := to_uchar c]> (uart_tx_buf s))
                  (uart_tx_w s) (uart_tx_r s) (panicked s) (dev s)
                  (trace s ++ [EvStore i (to_uchar c)]))
  else OutOfBounds i s.

(** The element [i] of the array, when there is one. *)
Definition buf_at (s : state) (i : Z) : option Z :=
  if in_buf i then uart_tx_buf s !! Z.to_nat i else None.

(** [uart_tx_buf[i]] as an rvalue *)
Definition buf_load (i : Z) : M Z := λ s,
  match buf_at s i with
  | Some c =>
      Ret c (State (uart_tx_buf s) (uart_tx_w s) (uart_tx_r s) (panicked s)
                   (dev s) (trace s ++ [EvLoad i c]))
  | None => OutOfBounds i s
  end.

(** [for(;;) ;] *)
Fixpoint spin (fuel : nat) : M unit :=
  match fuel with
  | O => λ s, Diverged s
  | S fuel' => spin fuel'
  end.

(** [sleep(&uart_tx_r, &uart_tx_lock)]: the caller is suspended. *)
Definition sleep {A} : M A := λ s,
  Blocked (State (uart_tx_buf s) (uart_tx_w s) (uart_tx_r s) (panicked s)
                 (dev s) (trace s ++ [EvSleep])).

(** ** The functions of uart.c *)

Definition uart_entxi : M unit :=
  v ← ReadReg IER;
  if Z.land v IER_TX_ENABLE =? 0
  then WriteReg IER (Z.lor IER_TX_ENABLE IER_RX_ENABLE)
  else mret tt.

Definition uart_init : M unit :=
  WriteReg LCR LCR_EIGHT_BITS;;
  WriteReg FCR 0x00;;
  WriteReg IER IER_RX_ENABLE;;
  set_r 0;;
  set_w 0;;
  emit EvInitLock.

Fixpoint uart_start (fuel : nat) : M unit :=
  match fuel with
  | O => λ s, Diverged s
  | S fuel' =>
      w ← get uart_tx_w;
      r ← get uart_tx_r;
      if w =? r then mret tt
      else
        lsr ← ReadReg LSR;
        if Z.land lsr LSR_TX_IDLE =? 0 then mret tt
        else
          c ← buf_load r;
          set_r (Z.rem (to_int (r + 1)) UART_TX_BUF_SIZE);;
          WriteReg THR c;;
          emit EvWakeup;;
          uart_start fuel'
  end.

(** The [while(1)] of [uart_putchar].  When the buffer is full the caller
    sleeps; once woken it runs the loop again, which is another call of
    [uart_putchar_loop]. *)
Definition uart_putchar_loop (fuel : nat) (c : Z) : M unit :=
  w ← get uart_tx_w;
  r ← get uart_tx_r;
  if Z.rem (to_int (w + 1)) UART_TX_BUF_SIZE =? r then sleep
  else
    buf_store w c;;
    set_w (to_int (w + 1));;
    uart_start fuel;;
    emit EvRelease.

Definition uart_putchar (fuel : nat) (c : Z) : M unit :=
  emit EvAcquire;;
  p ← get panicked;
  (if nonzero p then spin fuel else mret tt);;
  uart_putchar_loop fuel c.

(** [while((ReadReg(LSR) & LSR_TX_IDLE) == 0) ;] *)
Fixpoint wait_tx_idle (fuel : nat) : M unit :=
  match fuel with
  | O => λ s, Diverged s
  | S fuel' =>
      lsr ← ReadReg LSR;
      if Z.land lsr LSR_TX_IDLE =? 0 then wait_tx_idle fuel' else mret tt
  end.

Definition uart_putc_sync (fuel : nat) (c : Z) : M unit :=
  emit EvPushOff;;
  p ← get panicked;
  (if nonzero p then spin fuel else mret tt);;
  wait_tx_idle fuel;;
  WriteReg THR c;;
  emit EvPopOff.

Definition uart_getchar : M Z :=
  lsr ← ReadReg LSR;
  if nonzero (Z.land lsr 0x01) then ReadReg RHR else mret (-1).

(** The receive loop of [uart_intr]. *)
Fixpoint uart_intr_rx (fuel : nat) : M unit :=
  match fuel with
  | O => λ s, Diverged s
  | S fuel' =>
      c ← uart_getchar;
      if c =? -1 then mret tt
      else emit (EvConsoleIntr c);; uart_intr_rx fuel'
  end.

Definition uart_intr (fuel : nat) : M unit :=
  v1 ← ReadReg IIR;
  (if Z.land v1 0x3f =? 0x0c then _ ← uart_getchar; mret tt else mret tt);;
  val ← ReadReg LSR;
  (if nonzero (Z.land val LSR_RX_READY) then uart_intr_rx fuel else mret tt);;
  (if nonzero (Z.land val LSR_TX_IDLE)
   then emit EvAcquire;; uart_start fuel;; emit EvRelease
   else mret tt);;
  v2 ← ReadReg IIR;
  if nonzero (Z.land v2 UART_IIR_BSY) then _ ← ReadReg USR; mret tt
  else mret tt.

(** ** Observations on the trace *)

Definition thr_write (e : event) : option Z :=
  match e with
  | EvWrite reg v => if reg =? THR then Some v else None
  | _ => None
  end.

Definition buf_stored (e : event) : option Z :=
  match e with EvStore _ v => Some v | _ => None end.

Definition buf_loaded (e : event) : option Z :=
  match e with EvLoad _ v => Some v | _ => None end.

Definition console_in (e : event) : option Z :=
  match e with EvConsoleIntr c => Some c | _ => None end.

Definition rhr_read (e : event) : option Z :=
  match e with
  | EvRead reg v => if reg =? RHR then Some v else None
  | _ => None
  end.

(** The bytes written to the transmit holding register, oldest first. *)
Definition transmitted (s : state) : list Z := omap thr_write (trace s).
(** The bytes stored into the ring buffer, oldest first. *)
Definition enqueued (s : state) : list Z := omap buf_stored (trace s).
(** The bytes the transmit pump took out of the ring buffer. *)
Definition dequeued (s : state) : list Z := omap buf_loaded (trace s).
(** The bytes handed to [consoleintr]. *)
Definition delivered (s : state) : list Z := omap console_in (trace s).

(** ** Power-on and boot *)

(** The globals are zero-initialised; nothing has happened yet. *)
Definition power_on (d : device) : state :=
  State (replicate (Z.to_nat UART_TX_BUF_SIZE) 0) 0 0 0 d [].

Definition boot (d : device) : state := state_of (uart_init (power_on d)).

(** A device with nothing received, whose n-th line status reading is
    [lsr n] and which never reports an interrupt cause. *)
Definition quiet_device (lsr : nat → Z) : device :=
  Device 0 0 0 [] lsr 0 (λ _, 1) 0.

(** A device whose line is never idle. *)
Definition busy_line : device := Device 0 0 0 [] (λ _, 0) 0 (λ _, 1) 0.

(** Successive calls of [uart_putchar], stopping at the first that does
    not return. *)
Fixpoint uart_putchars (fuel : nat) (cs : list Z) : M unit :=
  match cs with
  | [] => mret tt
  | c :: cs' => uart_putchar fuel c;; uart_putchars fuel cs'
  end.

(** ** States and relations used in the statements *)

(** The register writes in a trace, oldest first. *)
Definition reg_write (e : event) : option (Z * Z) :=
  match e with EvWrite reg v => Some (reg, v) | _ => None end.

(** The transmit-idle and data-ready bits the next read of LSR will show. *)
Definition tx_idle (d : device) : bool := Z.testbit (lsr_value d) 5.
Definition rx_ready (d : device) : bool := Z.testbit (lsr_value d) 0.

(** The device after one read of the line status register. *)
Definition lsr_read (d : device) : device :=
  Device (ier d) (lcr d) (fcr d) (rx_fifo d)
         (lsr_in d) (S (lsr_n d)) (iir_in d) (iir_n d).

(** The state in which [uart_start] returns when the transmit holding
    register is busy: the line status register has been read once. *)
Definition start_busy (s : state) : state :=
  State (uart_tx_buf s) (uart_tx_w s) (uart_tx_r s) (panicked s)
        (lsr_read (dev s))
        (trace s ++ [EvRead LSR (to_uchar (lsr_value (dev s)))]).

(** The state after one round of the loop of [uart_start] that sends the
    byte [c] found at the read cursor. *)
Definition start_pop (s : state) (c : Z) : state :=
  State (uart_tx_buf s) (uart_tx_w s)
        (Z.rem (to_int (uart_tx_r s + 1)) UART_TX_BUF_SIZE) (panicked s)
        (lsr_read (dev s))
        (trace s ++ [EvRead LSR (to_uchar (lsr_value (dev s)));
                     EvLoad (uart_tx_r s) c;
                     EvWrite THR (to_uchar c);
                     EvWakeup]).

(** The events of [uart_start]: reads of LSR, loads from the buffer,
    writes of THR and wakeups. *)
Definition pump_event (e : event) : bool :=
  match e with
  | EvRead reg _ => reg =? LSR
  | EvWrite reg _ => reg =? THR
  | EvLoad _ _ | EvWakeup => true
  | _ => false
  end.

(** What [uart_start] leaves alone: the buffer contents, the write
    cursor, the panic flag and the device except for the number of line
    status reads; and it adds events of the pump only. *)
Definition pump_frame (s s' : state) : Prop :=
  uart_tx_buf s' = uart_tx_buf s
  ∧ uart_tx_w s' = uart_tx_w s
  ∧ panicked s' = panicked s
  ∧ (∃ k, dev s' = Nat.iter k lsr_read (dev s))
  ∧ ∃ evs, trace s' = trace s ++ evs ∧ Forall (λ e, pump_event e = true) evs.

(** A panicked kernel with three bytes still in the ring buffer. *)
Definition panic_state : state :=
  State (replicate 32 7) 3 0 1 (Device 2 3 0 [] (λ _, 0x20) 0 (λ _, 1) 0) [].

(** The events on the lock and on the sleep channel. *)
Definition lock_event (e : event) : bool :=
  match e with
  | EvInitLock | EvAcquire | EvRelease | EvSleep | EvWakeup => true
  | _ => false
  end.

(** Two bytes wait in the buffer and the line is busy. *)
Definition busy_state : state :=
  State (replicate 32 7) 2 0 0 (Device 2 3 0 [] (λ _, 0) 0 (λ _, 1) 0) [].

(** The state after [acquire(&uart_tx_lock)]. *)
Definition acquired (s : state) : state :=
  State (uart_tx_buf s) (uart_tx_w s) (uart_tx_r s) (panicked s) (dev s)
        (trace s ++ [EvAcquire]).

(** The test [((uart_tx_w + 1) % UART_TX_BUF_SIZE) == uart_tx_r]. *)
Definition full (s : state) : bool :=
  Z.rem (to_int (uart_tx_w s + 1)) UART_TX_BUF_SIZE =? uart_tx_r s.

(** The state in which [uart_putchar] is suspended on a full buffer. *)
Definition put_blocked (s : state) : state :=
  State (uart_tx_buf s) (uart_tx_w s) (uart_tx_r s) (panicked s) (dev s)
        (trace s ++ [EvSleep]).

(** The state after [uart_tx_buf[uart_tx_w] = c; uart_tx_w = uart_tx_w + 1]. *)
Definition put_stored (s : state) (c : Z) : state :=
  State (<[Z.to_nat (uart_tx_w s) := to_uchar c]> (uart_tx_buf s))
        (to_int (uart_tx_w s + 1)) (uart_tx_r s) (panicked s) (dev s)
        (trace s ++ [EvStore (uart_tx_w s) (to_uchar c)]).

(** Both cursors are inside the array. *)
Definition ring_ok (s : state) : Prop :=
  length (uart_tx_buf s) = 32%nat
  ∧ 0 ≤ uart_tx_w s < 32
  ∧ 0 ≤ uart_tx_r s < 32.

(** The reads of the receive holding register in a trace, oldest first. *)
Definition rhr_reads (s : state) : list Z := omap rhr_read (trace s).

(** The state after [uart_getchar] took the byte [b] from the device,
    leaving [rest] behind. *)
Definition rx_taken (s : state) (b : Z) (rest : list Z) : state :=
  State (uart_tx_buf s) (uart_tx_w s) (uart_tx_r s) (panicked s)
        (Device (ier (dev s)) (lcr (dev s)) (fcr (dev s)) rest
                (lsr_in (dev s)) (S (lsr_n (dev s)))
                (iir_in (dev s)) (iir_n (dev s)))
        (trace s ++ [EvRead LSR (to_uchar (lsr_value (dev s)));
                     EvRead RHR (to_uchar b)]).

(** What a part of the handler did on the receive side: it took the bytes
    [got] out of the device, in order, by as many reads of RHR, handed
    [fwd] to [consoleintr], and left the ring buffer alone. *)
Definition rx_step (s s' : state) (got fwd : list Z) : Prop :=
  rx_fifo (dev s) = got ++ rx_fifo (dev s')
  ∧ rhr_reads s' = rhr_reads s ++ map to_uchar got
  ∧ delivered s' = delivered s ++ fwd
  ∧ uart_tx_buf s' = uart_tx_buf s
  ∧ uart_tx_w s' = uart_tx_w s
  ∧ uart_tx_r s' = uart_tx_r s.

(** What is left of [uart_intr] once the receive side is done: the
    transmit side and the busy-detect quirk. *)
Definition uart_intr_tail (fuel : nat) (val : Z) : M unit :=
  (if nonzero (Z.land val LSR_TX_IDLE)
   then emit EvAcquire;; uart_start fuel;; emit EvRelease
   else mret tt);;
  v2 ← ReadReg IIR;
  if nonzero (Z.land v2 UART_IIR_BSY) then _ ← ReadReg USR; mret tt
  else mret tt.

(** Nothing happened on the receive side between [s] and [s']. *)
Definition rx_quiet (s s' : state) : Prop :=
  rx_fifo (dev s') = rx_fifo (dev s)
  ∧ rhr_reads s' = rhr_reads s
  ∧ delivered s' = delivered s.

(** A relation between the state before and the state after that every
    step of a computation respects, however the computation ends. *)
Definition preserves {A} (R : state → state → Prop) (m : M A) : Prop :=
  ∀ s, R s (state_of (m s)).

(** The state after the interrupt identification register was read. *)
Definition iir_taken (s : state) : state :=
  State (uart_tx_buf s) (uart_tx_w s) (uart_tx_r s) (panicked s)
        (Device (ier (dev s)) (lcr (dev s)) (fcr (dev s)) (rx_fifo (dev s))
                (lsr_in (dev s)) (lsr_n (dev s))
                (iir_in (dev s)) (S (iir_n (dev s))))
        (trace s ++ [EvRead IIR (to_uchar (iir_in (dev s) (iir_n (dev s))))]).

(** One byte is pending and the interrupt identification register shows
    the receive-timeout code 0x0c. *)
Definition timeout_state : state :=
  State (replicate 32 0) 0 0 0
        (Device 2 3 0 [65] (λ _, 0x60) 0 (λ n, if n is O then 0x0c else 0x01) 0) [].

(** Two bytes are pending when a receive-data interrupt is taken. *)
Definition rx_state : state :=
  State (replicate 32 0) 0 0 0
        (Device 2 3 0 [104; 105] (λ _, 0x60) 0 (λ n, if n is O then 0x04 else 0x01) 0) [].

Definition is_byte (z : Z) : Prop := 0 ≤ z < 256.

(** What holds of the ring buffer in every state the driver reaches.  The
    read cursor is the number of bytes sent, modulo 32.  The bytes stored
    in the array are those below the write cursor, and while the write
    cursor is inside the array the bytes sent are those below the read
    cursor. *)
Record ring_inv (s : state) : Prop := RingInv {
  inv_len : length (uart_tx_buf s) = 32%nat;
  inv_bytes : Forall is_byte (uart_tx_buf s);
  inv_r : 0 ≤ uart_tx_r s < 32;
  inv_w : 0 ≤ uart_tx_w s < 2 ^ 31;
  inv_enq : enqueued s = take (Z.to_nat (uart_tx_w s)) (uart_tx_buf s);
  inv_count : uart_tx_r s = Z.of_nat (length (transmitted s)) mod 32;
  inv_inside :
    uart_tx_w s < 32 →
    transmitted s = take (Z.to_nat (uart_tx_r s)) (uart_tx_buf s)
    ∧ uart_tx_r s ≤ uart_tx_w s;
  inv_wrapped : 32 ≤ uart_tx_w s → (1 ≤ length (transmitted s))%nat
}.

(** Nothing happened to the ring buffer between [s] and [s']. *)
Definition ring_same (s s' : state) : Prop :=
  uart_tx_buf s' = uart_tx_buf s
  ∧ uart_tx_w s' = uart_tx_w s
  ∧ uart_tx_r s' = uart_tx_r s
  ∧ enqueued s' = enqueued s
  ∧ transmitted s' = transmitted s.

(** The invariant as a relation between the state before and after. *)
Definition keeps_ring_inv (s s' : state) : Prop := ring_inv s → ring_inv s'.

(** A call that did not access the array outside its bounds. *)
Definition in_bounds {A} (r : result A) : Prop :=
  match r with OutOfBounds _ _ => False | _ => True end.

(** What is left of [uart_putchar] after the store of line 131:
    [uart_tx_w = uart_tx_w + 1; uart_start(); release(); return]. *)
Definition uart_putchar_rest (fuel : nat) : M unit :=
  w ← get uart_tx_w;
  set_w (to_int (w + 1));;
  uart_start fuel;;
  emit EvRelease.

(** The states of the driver: it is booted by [uart_init] on any device;
    then, in any order and any number of times, threads call
    [uart_putchar], sleepers woken from a full buffer run its loop again,
    the pump [uart_start] is run, the interrupt handler [uart_intr] is run,
    and the kernel may panic.  The state in which a call ends, returning,
    suspended or still looping, is a state of the driver.  A call of
    [uart_putchar] that stores past the end of the array goes on as the
    source does, with the rest of the function: the stray store is taken
    to land on nothing the driver uses, and the run is followed up to the
    overflow of the write cursor, an [int], which C leaves undefined. *)
Inductive reachable : state → Prop :=
| reach_boot d : reachable (boot d)
| reach_putchar fuel c s :
    reachable s → in_bounds (uart_putchar fuel c s) →
    reachable (state_of (uart_putchar fuel c s))
| reach_putchar_stray fuel c s i s1 :
    reachable s → uart_putchar fuel c s = OutOfBounds i s1 →
    uart_tx_w s1 + 1 < 2 ^ 31 →
    reachable (state_of (uart_putchar_rest fuel s1))
| reach_retry fuel c s :
    reachable s → in_bounds (uart_putchar_loop fuel c s) →
    reachable (state_of (uart_putchar_loop fuel c s))
| reach_retry_stray fuel c s i s1 :
    reachable s → uart_putchar_loop fuel c s = OutOfBounds i s1 →
    uart_tx_w s1 + 1 < 2 ^ 31 →
    reachable (state_of (uart_putchar_rest fuel s1))
| reach_start fuel s :
    reachable s → reachable (state_of (uart_start fuel s))
| reach_intr fuel s :
    reachable s → reachable (state_of (uart_intr fuel s))
| reach_panic s :
    reachable s →
    reachable (State (uart_tx_buf s) (uart_tx_w s) (uart_tx_r s) 1 (dev s) (trace s)).

(** The number of bytes held in the buffer and not yet transmitted: those
    stored so far less those written to the transmit register so far. *)
Definition held (s : state) : Z :=
  Z.of_nat (length (enqueued s)) - Z.of_nat (length (transmitted s)).

(** The bytes 1, 2, ..., 32. *)
Definition bytes_1_32 : list Z := Z.of_nat <$> seq 1 32.

(** A line that is idle at the first [k] readings of the line status
    register and busy afterwards. *)
Definition idle_for (k : nat) : nat → Z := λ n, if (n <? k)%nat then 0x20 else 0.

(** A line that is idle at every reading of the line status register but
    the one numbered [k]. *)
Definition idle_but (k : nat) : nat → Z := λ n, if (n =? k)%nat then 0 else 0x20.

(** Booting, then writing the bytes 1 to 32 one by one on a line that is
    idle at the first 33 line status readings. *)
Definition wrap_run : result unit :=
  uart_putchars 3 bytes_1_32 (boot (quiet_device (idle_for 33))).

(** Booting, then writing the bytes 1 to 32 one by one on a line that is
    idle except at the line status reading number 32: every byte has been
    sent, once, and the cursors are 32 and 0. *)
Definition wrapped : state :=
  state_of (uart_putchars 2 bytes_1_32 (boot (quiet_device (idle_but 32)))).

(** ** More states and relations used in the statements *)

(** The number of bytes between the read cursor and the write cursor,
    going round the array. *)
Definition occupancy (s : state) : nat :=
  Z.to_nat ((uart_tx_w s - uart_tx_r s) mod 32).

(** The [n] elements of the array met from index [r] on, going round. *)
Fixpoint ring_slice (buf : list Z) (r : Z) (n : nat) : list Z :=
  match n with
  | O => []
  | S n' => default 0 (buf !! Z.to_nat r) :: ring_slice buf ((r + 1) mod 32) n'
  end.

(** The number of consecutive line status readings, from reading [k] on,
    that show the transmit-idle bit; at most [bound]. *)
Fixpoint idle_run (lsr : nat → Z) (k bound : nat) : nat :=
  match bound with
  | O => O
  | S bound' =>
      if Z.testbit (lsr k) 5 then S (idle_run lsr (S k) bound') else O
  end.

(** A buffer holding 100, 101, ..., 131 with the read cursor at 30 and the
    write cursor at 2, on a line that is idle at three readings and busy
    afterwards. *)
Definition round_state : state :=
  State (Z.of_nat <$> seq 100 32) 2 30 0
        (Device 2 3 0 [] (λ n, if (n <? 3)%nat then 0x20 else 0) 0 (λ _, 1) 0) [].

(** The wakeups in a trace. *)
Definition woken (e : event) : option unit :=
  match e with EvWakeup => Some tt | _ => None end.

(** Booting, then writing three bytes while the line is busy; the line is
    idle from its fourth reading on. *)
Definition queued3 : state :=
  state_of (uart_putchars 1 [10; 20; 30]
              (boot (quiet_device (λ n, if (n <? 3)%nat then 0 else 0x20)))).

(** The state in which [uart_putchar] returns when it found the buffer
    empty and the line idle: the byte went through the buffer and out. *)
Definition put_sent (s : state) (c : Z) : state :=
  State (<[Z.to_nat (uart_tx_w s) := to_uchar c]> (uart_tx_buf s))
        (uart_tx_w s + 1) (uart_tx_w s + 1) (panicked s)
        (lsr_read (dev s))
        (trace s ++ [EvAcquire;
                     EvStore (uart_tx_w s) (to_uchar c);
                     EvRead LSR (to_uchar (lsr_value (dev s)));
                     EvLoad (uart_tx_w s) (to_uchar c);
                     EvWrite THR (to_uchar c);
                     EvWakeup;
                     EvRelease]).

(** The state in which [uart_putchar] returns when it found room in the
    buffer and the line busy: the byte waits in the buffer. *)
Definition put_queued (s : state) (c : Z) : state :=
  State (<[Z.to_nat (uart_tx_w s) := to_uchar c]> (uart_tx_buf s))
        (uart_tx_w s + 1) (uart_tx_r s) (panicked s)
        (lsr_read (dev s))
        (trace s ++ [EvAcquire;
                     EvStore (uart_tx_w s) (to_uchar c);
                     EvRead LSR (to_uchar (lsr_value (dev s)));
                     EvRelease]).

(** The line shows transmit-idle ([b = true]) or busy ([b = false]) at
    the next [k] readings of the line status register. *)
Definition line_shows (b : bool) (k : nat) (d : device) : Prop :=
  ∀ i, (i < k)%nat → Z.testbit (lsr_in d (lsr_n d + i)) 5 = b.

(** An empty buffer after power-on, on a line that is always idle. *)
Definition idle_state : state :=
  State (replicate 32 0) 0 0 0 (Device 2 3 0 [] (λ _, 0x20) 0 (λ _, 1) 0) [].

(** An empty buffer after power-on, on a line that is never idle. *)
Definition stuck_state : state :=
  State (replicate 32 0) 0 0 0 (Device 2 3 0 [] (λ _, 0) 0 (λ _, 1) 0) [].

(** The events of [k] successive reads of the line status register on the
    device [d]. *)
Fixpoint poll_events (d : device) (k : nat) : list event :=
  match k with
  | O => []
  | S k' => EvRead LSR (to_uchar (lsr_value d)) :: poll_events (lsr_read d) k'
  end.

(** The state after [k] reads of the line status register. *)
Definition polled (s : state) (k : nat) : state :=
  State (uart_tx_buf s) (uart_tx_w s) (uart_tx_r s) (panicked s)
        (Nat.iter k lsr_read (dev s)) (trace s ++ poll_events (dev s) k).

(** A line that is busy at two readings of the line status register and
    idle from the third on. *)
Definition slow_state : state :=
  State (replicate 32 7) 3 1 0
        (Device 2 3 0 [] (λ n, if (n <? 2)%nat then 0 else 0x20) 0 (λ _, 1) 0) [].

(** A state in which the receive interrupt alone is enabled, as
    [uart_init] leaves it. *)
Definition rx_only_state : state :=
  State (replicate 32 0) 0 0 0 (Device 2 3 0 [] (λ _, 0x20) 0 (λ _, 1) 0) [].

(** A computation that is never suspended. *)
Definition never_blocks {A} (m : M A) : Prop := ∀ s s', m s ≠ Blocked s'.

(** What the interrupt handler leaves alone, however it ends: the contents
    of the buffer, the write cursor, the bytes stored so far, the panic
    flag and the interrupt enable register. *)
Definition intr_frame (s s' : state) : Prop :=
  uart_tx_buf s' = uart_tx_buf s
  ∧ uart_tx_w s' = uart_tx_w s
  ∧ enqueued s' = enqueued s
  ∧ panicked s' = panicked s
  ∧ ier (dev s') = ier (dev s).

(** Register reads. *)
Definition is_read (e : event) : bool :=
  match e with EvRead _ _ => true | _ => false end.

(** Between [s] and [s'] registers were read and nothing else happened. *)
Definition reads_only (s s' : state) : Prop :=
  uart_tx_buf s' = uart_tx_buf s
  ∧ uart_tx_w s' = uart_tx_w s
  ∧ uart_tx_r s' = uart_tx_r s
  ∧ panicked s' = panicked s
  ∧ ier (dev s') = ier (dev s)
  ∧ ∃ evs, trace s' = trace s ++ evs ∧ Forall (λ e, is_read e = true) evs.

(** The effect of an event on the number of holders of [uart_tx_lock]. *)
Definition lock_delta (e : event) : Z :=
  match e with EvAcquire => 1 | EvRelease => -1 | _ => 0 end.

Fixpoint lock_depth (evs : list event) : Z :=
  match evs with
  | [] => 0
  | e :: evs' => lock_delta e + lock_depth evs'
  end.

(** The accesses to the array [uart_tx_buf]. *)
Definition touches_ring (e : event) : bool :=
  match e with EvStore _ _ | EvLoad _ _ => true | _ => false end.

(** Starting with the lock taken [d] times, every access to the array in
    [evs] is made while the lock is held. *)
Fixpoint locked_access (d : Z) (evs : list event) : Prop :=
  match evs with
  | [] => True
  | e :: evs' =>
      (touches_ring e = true → 0 < d) ∧ locked_access (d + lock_delta e) evs'
  end.

(** Entered with the lock taken [d] times, the computation [m], however it
    ends, accesses the array only while the lock is held, and when it
    returns it has changed the number of holders by [delta]. *)
Definition locked_spec {A} (d delta : Z) (m : M A) : Prop :=
  ∀ s, ∃ evs,
    trace (state_of (m s)) = trace s ++ evs
    ∧ locked_access d evs
    ∧ ∀ a s', m s = Ret a s' → lock_depth evs = delta.

(** A spurious interrupt: nothing was received, the line is busy, the
    interrupt identification register shows the receive-timeout code and
    then the busy-detect code. *)
Definition spurious_state : state :=
  State (replicate 32 7) 5 2 0
        (Device 2 3 0 [] (λ _, 0x40) 0 (λ n, if n is O then 0x0c else 0x07) 0) [].

(** Four bytes wait at the indices 30, 31, 0 and 1 when a transmit
    interrupt is taken; the line is idle at three readings of the line
    status register and busy afterwards. *)
Definition tx_intr_state : state :=
  State (Z.of_nat <$> seq 100 32) 2 30 0
        (Device 3 3 0 [] (λ n, if (n <? 3)%nat then 0x20 else 0) 0
                (λ n, if n is O then 0x02 else 0x01) 0) [].

(** ** States past the 32nd byte *)

(** A line that is idle at its first reading, busy at the next 31, idle
    at the 32 readings after them and busy from then on. *)
Definition clog_line : nat → Z := λ n,
  if (n =? 0)%nat then 0x20
  else if (n <? 32)%nat then 0
  else if (n <? 64)%nat then 0x20 else 0.

(** Booting, then writing the bytes 1 to 32 on that line: the first byte
    is sent at once and the 31 others wait in the buffer. *)
Definition full_ring : state :=
  state_of (uart_putchars 2 bytes_1_32 (boot (quiet_device clog_line))).

(** The state in which a 33rd call of [uart_putchar] sleeps. *)
Definition asleep : state := put_blocked (acquired full_ring).

(** The state after the pump has run on the 32 idle readings. *)
Definition drained : state := state_of (uart_start 40 asleep).

(** Booting, then writing the bytes 1 to 32 on a line that is idle except
    at its readings number 32 and 35: every byte is sent as it is
    written. *)
Definition sent_all : state :=
  state_of (uart_putchars 2 bytes_1_32
              (boot (quiet_device
                       (λ n, if (n =? 32)%nat || (n =? 35)%nat then 0 else 0x20)))).

(** The state after a 33rd call of [uart_putchar] in [sent_all], whose
    store went past the end of the array. *)
Definition strayed : state :=
  state_of (uart_putchar_rest 3 (acquired sent_all)).

(** Booting, then writing three bytes on a line that is always idle. *)
Definition sent3 : state :=
  state_of (uart_putchars 2 [10; 20; 30] (boot (quiet_device (λ _, 0x20)))).

(** Between [s] and [s'] the array, its cursors and the lock were left
    alone: no event is an access to the array or an operation on the lock
    or the sleep channel. *)
Definition ring_untouched (s s' : state) : Prop :=
  uart_tx_buf s' = uart_tx_buf s
  ∧ uart_tx_w s' = uart_tx_w s
  ∧ uart_tx_r s' = uart_tx_r s
  ∧ ∃ evs, trace s' = trace s ++ evs
      ∧ Forall (λ e, touches_ring e = false ∧ lock_event e = false) evs.

(** * Properties *)

#[local] Arguments to_uchar : simpl never.
#[local] Arguments to_int : simpl never.
#[local] Arguments lsr_value : simpl never.
#[local] Arguments Z.land : simpl never.
#[local] Arguments Z.rem : simpl never.

Ltac munfold :=
  unfold mbind, M_mbind, M_bind, mret, M_mret, M_ret, get, emit, set_w,
    set_r, sleep.

(** ** Bits and bytes *)

Lemma to_uchar_range z : 0 ≤ to_uchar z < 256.
Proof. unfold to_uchar. apply Z.mod_pos_bound. lia. Qed.

Lemma to_uchar_byte z : 0 ≤ z < 256 → to_uchar z = z.
Proof. unfold to_uchar. intros. apply Z.mod_small. lia. Qed.

Lemma to_int_small z : - 2 ^ 31 ≤ z < 2 ^ 31 → to_int z = z.
Proof. unfold to_int. intros. rewrite Z.mod_small; lia. Qed.

Lemma land_bit a n :
  0 ≤ n → Z.land a (Z.shiftl 1 n) = if Z.testbit a n then Z.shiftl 1 n else 0.
Proof.
  intros Hn. rewrite Z.shiftl_1_l. apply Z.bits_inj'. intros m Hm.
  rewrite Z.land_spec, Z.pow2_bits_eqb by done.
  destruct (Z.eqb_spec n m) as [->|Hne].
  - destruct (Z.testbit a m); [by rewrite Z.pow2_bits_true|by rewrite Z.bits_0].
  - rewrite andb_false_r.
    destruct (Z.testbit a n); [by rewrite Z.pow2_bits_false|by rewrite Z.bits_0].
Qed.

Lemma uchar_bit z n : n < 8 → Z.testbit (to_uchar z) n = Z.testbit z n.
Proof. intros. unfold to_uchar. by apply (Z.mod_pow2_bits_low z 8 n). Qed.

(** What the driver's masks test, in terms of the bits of the register. *)
Lemma land_tx_idle z :
  (Z.land (to_uchar z) LSR_TX_IDLE =? 0) = negb (Z.testbit z 5).
Proof.
  unfold LSR_TX_IDLE. rewrite land_bit, uchar_bit by lia.
  by destruct (Z.testbit z 5).
Qed.

Lemma land_rx_ready z :
  nonzero (Z.land (to_uchar z) LSR_RX_READY) = Z.testbit z 0.
Proof.
  unfold LSR_RX_READY, nonzero. rewrite land_bit, uchar_bit by lia.
  by destruct (Z.testbit z 0).
Qed.

Lemma land_0x01 z : nonzero (Z.land (to_uchar z) 0x01) = Z.testbit z 0.
Proof. apply land_rx_ready. Qed.

Lemma lsr_value_tx d : Z.testbit (lsr_value d) 5 = Z.testbit (lsr_in d (lsr_n d)) 5.
Proof.
  unfold lsr_value. rewrite Z.lor_spec, Z.ldiff_spec.
  assert (Z.testbit LSR_RX_READY 5 = false) as -> by done.
  destruct (rx_fifo d); rewrite ?Z.bits_0; simpl; by rewrite andb_true_r, orb_false_r.
Qed.

Lemma lsr_value_rx d :
  Z.testbit (lsr_value d) 0 = match rx_fifo d with [] => false | _ => true end.
Proof.
  unfold lsr_value. rewrite Z.lor_spec, Z.ldiff_spec.
  assert (Z.testbit LSR_RX_READY 0 = true) as -> by done.
  rewrite andb_false_r. by destruct (rx_fifo d).
Qed.

(** ** Single steps of the driver *)

Lemma spin_diverges fuel s : spin fuel s = Diverged s.
Proof. induction fuel; done. Qed.

Lemma ReadReg_LSR s :
  ReadReg LSR s =
    Ret (to_uchar (lsr_value (dev s)))
        (State (uart_tx_buf s) (uart_tx_w s) (uart_tx_r s) (panicked s)
               (lsr_read (dev s))
               (trace s ++ [EvRead LSR (to_uchar (lsr_value (dev s)))])).
Proof. done. Qed.

Lemma uart_start_empty fuel s :
  uart_tx_w s = uart_tx_r s → uart_start (S fuel) s = Ret tt s.
Proof. intros H. simpl. munfold. by rewrite H, Z.eqb_refl. Qed.

Lemma uart_start_busy fuel s :
  uart_tx_w s ≠ uart_tx_r s → tx_idle (dev s) = false →
  uart_start (S fuel) s = Ret tt (start_busy s).
Proof.
  intros Hne Hbusy. simpl. munfold.
  apply Z.eqb_neq in Hne. rewrite Hne, ReadReg_LSR, land_tx_idle.
  unfold tx_idle in Hbusy. by rewrite Hbusy.
Qed.

Lemma uart_start_pop fuel s c :
  uart_tx_w s ≠ uart_tx_r s → tx_idle (dev s) = true →
  buf_at s (uart_tx_r s) = Some c →
  uart_start (S fuel) s = uart_start fuel (start_pop s c).
Proof.
  intros Hne Hidle Hc. simpl. munfold.
  apply Z.eqb_neq in Hne. rewrite Hne, ReadReg_LSR, land_tx_idle.
  unfold tx_idle in Hidle. rewrite Hidle. simpl.
  unfold buf_load, buf_at in *. simpl. rewrite Hc. simpl.
  unfold WriteReg, start_pop. simpl. by rewrite <- !app_assoc.
Qed.

Lemma uart_start_oob fuel s :
  uart_tx_w s ≠ uart_tx_r s → tx_idle (dev s) = true →
  buf_at s (uart_tx_r s) = None →
  uart_start (S fuel) s = OutOfBounds (uart_tx_r s) (start_busy s).
Proof.
  intros Hne Hidle Hc. simpl. munfold.
  apply Z.eqb_neq in Hne. rewrite Hne, ReadReg_LSR, land_tx_idle.
  unfold tx_idle in Hidle. rewrite Hidle. simpl.
  unfold buf_load, buf_at in *. simpl. by rewrite Hc.
Qed.

(** The driver on small inputs. *)
Example uart_getchar_pending : ∃ s', uart_getchar rx_state = Ret 104 s'.
Proof. by eexists. Qed.

Example uart_getchar_nothing : ∃ s', uart_getchar busy_state = Ret (-1) s'.
Proof. by eexists. Qed.

Example putchar_sends_in_order :
  transmitted (state_of (uart_putchars 2 [72; 105] (boot (quiet_device (λ _, 0x20)))))
    = [72; 105].
Proof. by vm_compute. Qed.

Example putchar_queues_on_busy_line :
  enqueued (state_of (uart_putchars 1 [72; 105] (boot busy_line))) = [72; 105]
  ∧ transmitted (state_of (uart_putchars 1 [72; 105] (boot busy_line))) = [].
Proof. by vm_compute. Qed.

(** The four ways one round of the loop of [uart_start] can go. *)
Lemma uart_start_cases fuel s :
  (uart_tx_w s = uart_tx_r s ∧ uart_start (S fuel) s = Ret tt s)
  ∨ (uart_tx_w s ≠ uart_tx_r s ∧ tx_idle (dev s) = false
     ∧ uart_start (S fuel) s = Ret tt (start_busy s))
  ∨ (uart_tx_w s ≠ uart_tx_r s ∧ tx_idle (dev s) = true
     ∧ buf_at s (uart_tx_r s) = None
     ∧ uart_start (S fuel) s = OutOfBounds (uart_tx_r s) (start_busy s))
  ∨ (∃ c, uart_tx_w s ≠ uart_tx_r s ∧ tx_idle (dev s) = true
     ∧ buf_at s (uart_tx_r s) = Some c
     ∧ uart_start (S fuel) s = uart_start fuel (start_pop s c)).
Proof.
  destruct (decide (uart_tx_w s = uart_tx_r s)) as [He|Hne].
  { left. eauto using uart_start_empty. }
  right. destruct (tx_idle (dev s)) eqn:Hidle.
  2: { left. eauto using uart_start_busy. }
  right. destruct (buf_at s (uart_tx_r s)) as [c|] eqn:Hc.
  - right. exists c. eauto using uart_start_pop.
  - left. eauto using uart_start_oob.
Qed.

Lemma pump_frame_refl s : pump_frame s s.
Proof.
  repeat split; [by exists 0%nat|]. exists []. by rewrite app_nil_r.
Qed.

Lemma pump_frame_trans s1 s2 s3 :
  pump_frame s1 s2 → pump_frame s2 s3 → pump_frame s1 s3.
Proof.
  intros (Hb1 & Hw1 & Hp1 & [k1 Hd1] & evs1 & Ht1 & He1)
         (Hb2 & Hw2 & Hp2 & [k2 Hd2] & evs2 & Ht2 & He2).
  repeat split; try congruence.
  - exists (k2 + k1)%nat. by rewrite Nat.iter_add, <- Hd1.
  - exists (evs1 ++ evs2). rewrite Ht2, Ht1, <- app_assoc.
    split; [done|]. by apply Forall_app.
Qed.

Lemma pump_frame_busy s : pump_frame s (start_busy s).
Proof.
  repeat split; [by exists 1%nat|]. eexists. split; [done|]. by repeat constructor.
Qed.

Lemma pump_frame_pop s c : pump_frame s (start_pop s c).
Proof.
  repeat split; [by exists 1%nat|]. eexists. split; [done|]. by repeat constructor.
Qed.

Lemma uart_start_frame fuel s : pump_frame s (state_of (uart_start fuel s)).
Proof.
  revert s. induction fuel as [|fuel IH]; intros s; [apply pump_frame_refl|].
  destruct (uart_start_cases fuel s)
    as [[_ ->]|[(_ & _ & ->)|[(_ & _ & _ & ->)|(c & _ & _ & _ & ->)]]]; simpl.
  - apply pump_frame_refl.
  - apply pump_frame_busy.
  - apply pump_frame_busy.
  - eapply pump_frame_trans; [apply pump_frame_pop|apply IH].
Qed.

Lemma iter_lsr_read k d :
  Nat.iter k lsr_read d =
    Device (ier d) (lcr d) (fcr d) (rx_fifo d)
           (lsr_in d) (k + lsr_n d) (iir_in d) (iir_n d).
Proof.
  induction k as [|k IH]; simpl; [by destruct d|]. by rewrite IH.
Qed.

(** ** Panic *)

(** C7. A call of [uart_putchar] or of [uart_putc_sync] entered while
    [panicked] is set never returns: whatever the number of loop
    iterations allowed, the call is still spinning; the ring buffer, its
    cursors and the device are as they were, and the only thing the call
    has done is to take the lock (respectively to disable interrupts), so
    nothing was written to the buffer or to the transmit register. *)
Theorem panicked_write_never_returns (fuel : nat) (c : Z) (s : state) :
  panicked s ≠ 0 →
  uart_putchar fuel c s =
    Diverged (State (uart_tx_buf s) (uart_tx_w s) (uart_tx_r s) (panicked s)
                    (dev s) (trace s ++ [EvAcquire]))
  ∧ uart_putc_sync fuel c s =
    Diverged (State (uart_tx_buf s) (uart_tx_w s) (uart_tx_r s) (panicked s)
                    (dev s) (trace s ++ [EvPushOff])).
Proof.
  intros Hp. unfold uart_putchar, uart_putc_sync, nonzero. munfold. simpl.
  apply Z.eqb_neq in Hp. rewrite Hp. simpl.
  by rewrite !spin_diverges.
Qed.

Lemma panicked_write_never_returns_witness :
  panicked panic_state ≠ 0
  ∧ uart_putchar 1000 65 panic_state =
      Diverged (State (uart_tx_buf panic_state) 3 0 1 (dev panic_state) [EvAcquire])
  ∧ uart_putc_sync 1000 65 panic_state =
      Diverged (State (uart_tx_buf panic_state) 3 0 1 (dev panic_state) [EvPushOff]).
Proof.
  split; [done|].
  apply (panicked_write_never_returns 1000 65 panic_state). done.
Defined.

(** ** Non-blocking read *)

(** C8. [uart_getchar] always returns, after reading the line status
    register once.  When the data-ready bit is set it returns the byte it
    then reads from the receive holding register; when the bit is clear it
    returns -1 and does not read the receive holding register.  It does
    not touch the lock, sleep or wake anyone, and leaves the ring buffer
    alone. *)
Theorem uart_getchar_nonblocking (s : state) :
  ∃ v s' evs,
    uart_getchar s = Ret v s'
    ∧ trace s' = trace s ++ EvRead LSR (to_uchar (lsr_value (dev s))) :: evs
    ∧ (if rx_ready (dev s)
       then v = to_uchar (dev_read RHR (lsr_read (dev s))).1
            ∧ dev s' = (dev_read RHR (lsr_read (dev s))).2
            ∧ evs = [EvRead RHR v]
       else v = -1 ∧ dev s' = lsr_read (dev s) ∧ evs = [])
    ∧ Forall (λ e, lock_event e = false) evs
    ∧ uart_tx_buf s' = uart_tx_buf s
    ∧ uart_tx_w s' = uart_tx_w s
    ∧ uart_tx_r s' = uart_tx_r s.
Proof.
  unfold uart_getchar. munfold. rewrite ReadReg_LSR.
  assert (nonzero (Z.land (to_uchar (lsr_value (dev s))) 1) = rx_ready (dev s))
    as -> by apply land_rx_ready.
  destruct (rx_ready (dev s)) eqn:Hrx.
  - unfold ReadReg. simpl.
    destruct (dev_read RHR (lsr_read (dev s))) as [v d'] eqn:Hd. simpl.
    eexists _, _, _. split; [done|]. simpl. rewrite <- app_assoc.
    split; [done|]. repeat split; by repeat constructor.
  - eexists _, _, _. split; [done|]. simpl.
    split; [done|]. repeat split; by repeat constructor.
Qed.

(** C10. The result of [uart_getchar] is -1 or a byte value: the register
    is read as an [unsigned char], so a received byte is in 0..255 and is
    never mistaken for the -1 that says nothing was received; -1 is
    returned exactly when the data-ready bit is clear. *)
Theorem uart_getchar_range (s : state) :
  ∃ v s',
    uart_getchar s = Ret v s'
    ∧ (v = -1 ∨ 0 ≤ v ≤ 255)
    ∧ (v = -1 ↔ rx_ready (dev s) = false).
Proof.
  unfold uart_getchar. munfold. rewrite ReadReg_LSR.
  assert (nonzero (Z.land (to_uchar (lsr_value (dev s))) 1) = rx_ready (dev s))
    as -> by apply land_rx_ready.
  destruct (rx_ready (dev s)) eqn:Hrx.
  - unfold ReadReg. simpl.
    destruct (dev_read RHR (lsr_read (dev s))) as [v d'].
    pose proof (to_uchar_range v).
    eexists _, _. split; [done|]. split; [lia|]. split; [lia|done].
  - eexists _, _. split; [done|]. split; [by left|done].
Qed.

(** ** The transmit pump at an empty buffer or a busy line *)

(** A call of [uart_start] made when the write cursor equals the read
    cursor or when the transmit-idle bit of the line status register is
    clear returns at once: it performs no register write, and the two
    cursors and the buffer contents are unchanged. *)
Lemma uart_start_noop (fuel : nat) (s : state) :
  uart_tx_w s = uart_tx_r s ∨ tx_idle (dev s) = false →
  ∃ s', uart_start (S fuel) s = Ret tt s'
    ∧ omap reg_write (trace s') = omap reg_write (trace s)
    ∧ uart_tx_w s' = uart_tx_w s
    ∧ uart_tx_r s' = uart_tx_r s
    ∧ uart_tx_buf s' = uart_tx_buf s.
Proof.
  intros H.
  destruct (decide (uart_tx_w s = uart_tx_r s)) as [He|Hne].
  - exists s. by rewrite uart_start_empty.
  - destruct H as [?|Hbusy]; [done|].
    exists (start_busy s). rewrite uart_start_busy by done.
    split; [done|]. split; [|done].
    simpl. rewrite omap_app. simpl. by rewrite app_nil_r.
Qed.

Lemma uart_start_noop_witness :
  (uart_tx_w busy_state = uart_tx_r busy_state ∨ tx_idle (dev busy_state) = false)
  ∧ ∃ s', uart_start 1 busy_state = Ret tt s'
    ∧ omap reg_write (trace s') = omap reg_write (trace busy_state)
    ∧ uart_tx_w s' = uart_tx_w busy_state
    ∧ uart_tx_r s' = uart_tx_r busy_state
    ∧ uart_tx_buf s' = uart_tx_buf busy_state.
Proof.
  split; [by right|].
  apply (uart_start_noop 0 busy_state). by right.
Defined.

(** ** [uart_putchar], case by case *)

Lemma uart_putchar_loop_cases fuel c s :
  (full s = true ∧ uart_putchar_loop fuel c s = Blocked (put_blocked s))
  ∨ (full s = false ∧ in_buf (uart_tx_w s) = false
     ∧ uart_putchar_loop fuel c s = OutOfBounds (uart_tx_w s) s)
  ∨ (full s = false ∧ in_buf (uart_tx_w s) = true
     ∧ uart_putchar_loop fuel c s =
         (uart_start fuel;; emit EvRelease) (put_stored s c)).
Proof.
  unfold uart_putchar_loop. munfold. fold (full s).
  destruct (full s); [by left|right].
  unfold buf_store. destruct (in_buf (uart_tx_w s)); [right|left]; done.
Qed.

Lemma uart_putchar_unfold fuel c s :
  uart_putchar fuel c s =
    if nonzero (panicked s) then Diverged (acquired s)
    else uart_putchar_loop fuel c (acquired s).
Proof.
  unfold uart_putchar. munfold. simpl.
  destruct (nonzero (panicked s)); [by rewrite spin_diverges|done].
Qed.

(** The interrupt enable register is written by [uart_init] and
    [uart_entxi] only. *)
Lemma pump_frame_ier s s' : pump_frame s s' → ier (dev s') = ier (dev s).
Proof. intros (_ & _ & _ & [k ->] & _). by rewrite iter_lsr_read. Qed.

Lemma uart_putchar_loop_ier fuel c s :
  ier (dev (state_of (uart_putchar_loop fuel c s))) = ier (dev s).
Proof.
  destruct (uart_putchar_loop_cases fuel c s)
    as [[_ ->]|[(_ & _ & ->)|(_ & _ & ->)]]; try done.
  munfold. pose proof (uart_start_frame fuel (put_stored s c)) as Hf.
  apply pump_frame_ier in Hf.
  by destruct (uart_start fuel (put_stored s c)).
Qed.

(** ** The transmit interrupt *)

(** C6, as stated, fails: on a busy line the first [uart_putchar] after
    [uart_init] stores its byte, runs the pump, which cannot send it, and
    returns with the byte queued and the transmit-interrupt enable bit of
    IER still clear. *)
Lemma first_putchar_tx_interrupt_off :
  uart_putchar 1 65 (boot busy_line)
    = Ret tt (state_of (uart_putchar 1 65 (boot busy_line)))
  ∧ enqueued (state_of (uart_putchar 1 65 (boot busy_line))) = [65]
  ∧ transmitted (state_of (uart_putchar 1 65 (boot busy_line))) = []
  ∧ ier (dev (state_of (uart_putchar 1 65 (boot busy_line)))) = IER_RX_ENABLE
  ∧ Z.land (ier (dev (state_of (uart_putchar 1 65 (boot busy_line)))))
           IER_TX_ENABLE = 0.
Proof. vm_compute. done. Qed.

(** C6, amended.  Neither [uart_putchar] nor [uart_start] changes the
    interrupt enable register, however the call ends.  The
    transmit-interrupt enable bit is set by the separate routine
    [uart_entxi]: it always returns, and afterwards the bit is set (it
    writes IER_TX_ENABLE | IER_RX_ENABLE when it finds the bit clear and
    writes nothing otherwise). *)
Theorem tx_interrupt_enabled_by_entxi (fuel : nat) (c : Z) (s : state) :
  ier (dev (state_of (uart_putchar fuel c s))) = ier (dev s)
  ∧ ier (dev (state_of (uart_start fuel s))) = ier (dev s)
  ∧ ∃ s', uart_entxi s = Ret tt s'
      ∧ Z.testbit (ier (dev s')) 0 = true
      ∧ (Z.testbit (ier (dev s)) 0 = true → dev s' = dev s)
      ∧ (Z.testbit (ier (dev s)) 0 = false →
         ier (dev s') = Z.lor IER_TX_ENABLE IER_RX_ENABLE).
Proof.
  split; [|split].
  - rewrite uart_putchar_unfold. destruct (nonzero (panicked s)); [done|].
    by rewrite uart_putchar_loop_ier.
  - apply pump_frame_ier, uart_start_frame.
  - unfold uart_entxi. munfold. unfold ReadReg. simpl.
    unfold IER_TX_ENABLE at 1. rewrite land_bit, uchar_bit by lia.
    destruct (Z.testbit (ier (dev s)) 0) eqn:Hb; simpl.
    + eexists. split; [done|]. simpl in *. by rewrite Hb.
    + eexists. split; [done|]. simpl in *. by rewrite Hb.
Qed.

(** ** Termination of the pump while the write cursor is inside the array *)

Lemma next_index r :
  0 ≤ r < 32 → Z.rem (to_int (r + 1)) UART_TX_BUF_SIZE = (r + 1) mod 32.
Proof.
  intros. rewrite to_int_small by lia. apply Z.rem_mod_nonneg; unfold UART_TX_BUF_SIZE; lia.
Qed.

Lemma buf_at_in_range s i :
  length (uart_tx_buf s) = 32%nat → 0 ≤ i < 32 → is_Some (buf_at s i).
Proof.
  intros Hlen Hi. unfold buf_at, in_buf, UART_TX_BUF_SIZE.
  assert ((0 <=? i) && (i <? 32) = true) as -> by lia.
  apply lookup_lt_is_Some. lia.
Qed.

Lemma uart_start_returns fuel s :
  ring_ok s → (uart_tx_w s - uart_tx_r s) mod 32 < Z.of_nat fuel →
  ∃ s', uart_start fuel s = Ret tt s' ∧ ring_ok s'
    ∧ Z.of_nat (length (dequeued s')) ≤
        Z.of_nat (length (dequeued s)) + (uart_tx_w s - uart_tx_r s) mod 32.
Proof.
  revert s. induction fuel as [|fuel IH]; intros s (Hlen & Hw & Hr) Hfuel.
  { pose proof (Z.mod_pos_bound (uart_tx_w s - uart_tx_r s) 32). lia. }
  pose proof (Z.mod_pos_bound (uart_tx_w s - uart_tx_r s) 32 ltac:(lia)) as Hm.
  destruct (uart_start_cases fuel s)
    as [[_ ->]|[(_ & _ & ->)|[(_ & _ & Hnone & _)|(c & Hne & _ & Hc & ->)]]].
  - exists s. split; [done|]. split; [done|]. lia.
  - exists (start_busy s). split; [done|]. split; [done|].
    unfold dequeued. simpl. rewrite omap_app. simpl. rewrite app_nil_r. lia.
  - destruct (buf_at_in_range s (uart_tx_r s) Hlen Hr) as [c Hc]. congruence.
  - assert (uart_tx_r (start_pop s c) = (uart_tx_r s + 1) mod 32) as Hr'
      by (simpl; by apply next_index).
    assert ((uart_tx_w s - (uart_tx_r s + 1) mod 32) mod 32
            = (uart_tx_w s - uart_tx_r s) mod 32 - 1) as Hdec.
    { rewrite Zminus_mod_idemp_r.
      replace (uart_tx_w s - (uart_tx_r s + 1)) with (uart_tx_w s - uart_tx_r s - 1) by lia.
      destruct (decide (uart_tx_r s < uart_tx_w s)).
      - rewrite !Z.mod_small by lia. lia.
      - replace (uart_tx_w s - uart_tx_r s - 1)
          with (uart_tx_w s - uart_tx_r s + 32 - 1 + (-1) * 32) by lia.
        replace (uart_tx_w s - uart_tx_r s)
          with (uart_tx_w s - uart_tx_r s + 32 + (-1) * 32) at 2 by lia.
        rewrite !Z.mod_add by lia. rewrite !Z.mod_small by lia. lia. }
    destruct (IH (start_pop s c)) as (s' & Hs' & Hok & Hcount).
    + split; [done|]. split; [done|]. rewrite Hr'. apply Z.mod_pos_bound. lia.
    + rewrite Hr'. simpl uart_tx_w. lia.
    + exists s'. split; [done|]. split; [done|].
      rewrite Hr' in Hcount. simpl uart_tx_w in Hcount.
      assert (length (dequeued (start_pop s c)) = S (length (dequeued s))) as Hl.
      { unfold dequeued. simpl. rewrite omap_app, length_app. simpl. lia. }
      lia.
Qed.

(** ** The receive side of the interrupt handler *)

Lemma uart_getchar_some s b rest :
  rx_fifo (dev s) = b :: rest →
  uart_getchar s = Ret (to_uchar b) (rx_taken s b rest).
Proof.
  intros Hrx. unfold uart_getchar. munfold. rewrite ReadReg_LSR.
  assert (nonzero (Z.land (to_uchar (lsr_value (dev s))) 1) = true) as ->.
  { rewrite land_0x01, lsr_value_rx. by rewrite Hrx. }
  unfold ReadReg. simpl.
  assert (dev_read RHR (lsr_read (dev s)) = (b, dev (rx_taken s b rest))) as ->
    by (unfold dev_read; simpl; by rewrite Hrx).
  unfold rx_taken. by rewrite <- app_assoc.
Qed.

Lemma uart_getchar_none s :
  rx_fifo (dev s) = [] → uart_getchar s = Ret (-1) (start_busy s).
Proof.
  intros Hrx. unfold uart_getchar. munfold. rewrite ReadReg_LSR.
  assert (nonzero (Z.land (to_uchar (lsr_value (dev s))) 1) = false) as ->.
  { rewrite land_0x01, lsr_value_rx. by rewrite Hrx. }
  done.
Qed.

Lemma rx_step_trans s1 s2 s3 g1 f1 g2 f2 :
  rx_step s1 s2 g1 f1 → rx_step s2 s3 g2 f2 →
  rx_step s1 s3 (g1 ++ g2) (f1 ++ f2).
Proof.
  intros (Hx1 & Hr1 & Hd1 & Hb1 & Hw1 & Hc1) (Hx2 & Hr2 & Hd2 & Hb2 & Hw2 & Hc2).
  unfold rx_step. rewrite !map_app, !app_assoc, <- Hr1, <- Hd1, <- !app_assoc, <- Hx2.
  repeat split; congruence.
Qed.

Lemma rx_step_busy s : rx_step s (start_busy s) [] [].
Proof.
  unfold rx_step, rhr_reads, delivered. simpl.
  rewrite !omap_app. simpl. by rewrite !app_nil_r.
Qed.

Lemma rx_step_taken s b rest :
  rx_fifo (dev s) = b :: rest → rx_step s (rx_taken s b rest) [b] [].
Proof.
  intros Hrx. unfold rx_step, rhr_reads, delivered. simpl.
  rewrite !omap_app. simpl. by rewrite !app_nil_r.
Qed.

Lemma rx_step_console s c :
  rx_step s (state_of (emit (EvConsoleIntr c) s)) [] [c].
Proof.
  unfold rx_step, rhr_reads, delivered. simpl.
  rewrite !omap_app. simpl. by rewrite !app_nil_r.
Qed.

(** The receive loop hands over everything the device holds and stops at
    the first line status reading without the data-ready bit. *)
Lemma uart_intr_rx_spec fuel s :
  (length (rx_fifo (dev s)) < fuel)%nat →
  ∃ s', uart_intr_rx fuel s = Ret tt s'
    ∧ rx_step s s' (rx_fifo (dev s)) (map to_uchar (rx_fifo (dev s)))
    ∧ rx_fifo (dev s') = []
    ∧ iir_in (dev s') = iir_in (dev s) ∧ iir_n (dev s') = iir_n (dev s).
Proof.
  revert s. induction fuel as [|fuel IH]; intros s Hfuel; [lia|].
  simpl. munfold.
  destruct (rx_fifo (dev s)) as [|b rest] eqn:Hrx.
  - rewrite uart_getchar_none by done. simpl.
    exists (start_busy s). split; [done|]. split; [|done].
    apply rx_step_busy.
  - rewrite (uart_getchar_some s b rest) by done.
    pose proof (to_uchar_range b) as Hb.
    assert ((to_uchar b =? -1) = false) as -> by lia.
    simpl.
    edestruct (IH (state_of (emit (EvConsoleIntr (to_uchar b)) (rx_taken s b rest))))
      as (s' & Hs' & Hstep & Hnil & Hi1 & Hi2).
    { simpl in *. lia. }
    simpl in Hs'. exists s'. split; [done|]. split; [|done].
    apply (rx_step_trans _ _ _ _ _ _ _
      (rx_step_trans _ _ _ _ _ _ _ (rx_step_taken s b rest Hrx)
         (rx_step_console (rx_taken s b rest) (to_uchar b))) Hstep).
Qed.

Lemma uart_intr_unfold fuel :
  uart_intr fuel =
    (v1 ← ReadReg IIR;
     (if Z.land v1 0x3f =? 0x0c then _ ← uart_getchar; mret tt else mret tt);;
     val ← ReadReg LSR;
     (if nonzero (Z.land val LSR_RX_READY) then uart_intr_rx fuel else mret tt);;
     uart_intr_tail fuel val).
Proof. done. Qed.

Lemma rx_quiet_trans s1 s2 s3 : rx_quiet s1 s2 → rx_quiet s2 s3 → rx_quiet s1 s3.
Proof. unfold rx_quiet. intros (? & ? & ?) (? & ? & ?). repeat split; congruence. Qed.

Lemma pump_event_rx e :
  pump_event e = true → rhr_read e = None ∧ console_in e = None.
Proof.
  destruct e as [reg v| | | | | | | | | | |]; simpl; try done.
  intros ->%Z.eqb_eq. done.
Qed.

Lemma pump_frame_rx_quiet s s' : pump_frame s s' → rx_quiet s s'.
Proof.
  intros (_ & _ & _ & [k Hd] & evs & Ht & Hev).
  unfold rx_quiet, rhr_reads, delivered. rewrite Hd, Ht, iter_lsr_read, !omap_app.
  assert (omap rhr_read evs = [] ∧ omap console_in evs = []) as [-> ->].
  { clear Ht. induction Hev as [|e evs He _ IH]; [done|].
    destruct IH as [IH1 IH2].
    destruct (pump_event_rx e He) as [H1 H2]. simpl. by rewrite H1, H2. }
  by rewrite !app_nil_r.
Qed.

Lemma rx_quiet_emit s e :
  rhr_read e = None → console_in e = None → rx_quiet s (state_of (emit e s)).
Proof.
  intros H1 H2. unfold rx_quiet, rhr_reads, delivered. simpl.
  rewrite !omap_app. simpl. by rewrite H1, H2, !app_nil_r.
Qed.

Lemma rx_quiet_ReadReg s reg :
  reg ≠ RHR → rx_quiet s (state_of (ReadReg reg s)).
Proof.
  intros Hreg. apply Z.eqb_neq in Hreg.
  unfold rx_quiet, rhr_reads, delivered, ReadReg, dev_read. rewrite Hreg.
  repeat case_match; simplify_eq; simpl;
    rewrite !omap_app; simpl; by rewrite Hreg, !app_nil_r.
Qed.

Section Preserves.
Context (R : state → state → Prop).
Hypothesis R_refl : ∀ s, R s s.
Hypothesis R_trans : ∀ s1 s2 s3, R s1 s2 → R s2 s3 → R s1 s3.

Lemma preserves_ret {A} (a : A) : preserves R (mret a).
Proof. intros s. apply R_refl. Qed.

Lemma preserves_bind {A B} (m : M A) (f : A → M B) :
  preserves R m → (∀ a, preserves R (f a)) → preserves R (m ≫= f).
Proof.
  intros Hm Hf s. specialize (Hm s). unfold mbind, M_mbind, M_bind.
  destruct (m s) as [a s'| | |]; simpl in *; try done.
  eapply R_trans; [done|apply Hf].
Qed.

Lemma preserves_if {A} (b : bool) (m1 m2 : M A) :
  preserves R m1 → preserves R m2 → preserves R (if b then m1 else m2).
Proof. by destruct b. Qed.
End Preserves.

Lemma rx_quiet_refl s : rx_quiet s s.
Proof. done. Qed.

Lemma uart_intr_tail_quiet fuel val : preserves rx_quiet (uart_intr_tail fuel val).
Proof.
  unfold uart_intr_tail.
  repeat first
    [ apply preserves_bind; [apply rx_quiet_trans| |intros ?]
    | apply preserves_if
    | apply preserves_ret; apply rx_quiet_refl
    | intros s; by apply rx_quiet_emit
    | intros s; by apply rx_quiet_ReadReg
    | intros s; apply pump_frame_rx_quiet, uart_start_frame ].
Qed.

Lemma bind_Ret {A B} (m : M A) (f : A → M B) s a s' :
  m s = Ret a s' → (m ≫= f) s = f a s'.
Proof. intros H. unfold mbind, M_mbind, M_bind. by rewrite H. Qed.

Lemma ReadReg_returns reg s :
  ∃ v s', ReadReg reg s = Ret v s'
    ∧ uart_tx_buf s' = uart_tx_buf s
    ∧ uart_tx_w s' = uart_tx_w s
    ∧ uart_tx_r s' = uart_tx_r s.
Proof. unfold ReadReg. destruct (dev_read reg (dev s)). by eexists _, _. Qed.

Lemma uart_intr_tail_returns fuel val s :
  ring_ok s → (32 < fuel)%nat → ∃ s', uart_intr_tail fuel val s = Ret tt s'.
Proof.
  intros Hok Hfuel. unfold uart_intr_tail.
  assert (∃ s1, (if nonzero (Z.land val LSR_TX_IDLE)
                 then emit EvAcquire;; uart_start fuel;; emit EvRelease
                 else mret tt) s = Ret tt s1) as [s1 Hs1].
  { destruct (nonzero (Z.land val LSR_TX_IDLE)); [|by eexists].
    erewrite bind_Ret by done.
    edestruct (uart_start_returns fuel) as (s2 & Hs2 & _); [..|erewrite bind_Ret by apply Hs2].
    - apply Hok.
    - pose proof (Z.mod_pos_bound (uart_tx_w s - uart_tx_r s) 32). simpl. lia.
    - by eexists. }
  erewrite bind_Ret by done.
  destruct (ReadReg_returns IIR s1) as (v2 & s2 & Hs2 & _).
  erewrite bind_Ret by done.
  destruct (nonzero (Z.land v2 UART_IIR_BSY)); [|by eexists].
  destruct (ReadReg_returns USR s2) as (v3 & s3 & Hs3 & _).
  erewrite bind_Ret by done. by eexists.
Qed.

Lemma ReadReg_IIR s :
  ReadReg IIR s = Ret (to_uchar (iir_in (dev s) (iir_n (dev s)))) (iir_taken s).
Proof. done. Qed.

Lemma rx_step_iir s : rx_step s (iir_taken s) [] [].
Proof.
  unfold rx_step, rhr_reads, delivered. simpl.
  rewrite !omap_app. simpl. by rewrite !app_nil_r.
Qed.

(** The receive-timeout quirk: when the interrupt identification read
    [v1] carries the code 0x0c, one [uart_getchar] is made and its result
    thrown away, so the oldest pending byte, if any, is lost. *)
Lemma uart_intr_quirk v1 s :
  ∃ s' got,
    (if Z.land v1 0x3f =? 0x0c then _ ← uart_getchar; mret tt else mret tt) s
      = Ret tt s'
    ∧ rx_step s s' got []
    ∧ rx_fifo (dev s') =
        (if Z.land v1 0x3f =? 0x0c then tail (rx_fifo (dev s)) else rx_fifo (dev s)).
Proof.
  destruct (Z.land v1 0x3f =? 0x0c).
  - destruct (rx_fifo (dev s)) as [|b rest] eqn:Hrx.
    + exists (start_busy s), []. erewrite bind_Ret by by apply uart_getchar_none.
      split; [done|]. split; [apply rx_step_busy|done].
    + exists (rx_taken s b rest), [b].
      erewrite bind_Ret by by apply uart_getchar_some.
      split; [done|]. split; [by apply rx_step_taken|done].
  - exists s, []. split; [done|]. split; [|done].
    unfold rx_step. by rewrite !app_nil_r.
Qed.

(** The receive loop, entered only when the line status snapshot [val]
    has the data-ready bit. *)
Lemma uart_intr_receive fuel s :
  (length (rx_fifo (dev s)) < fuel)%nat →
  ∃ s',
    (if nonzero (Z.land (to_uchar (lsr_value (dev s))) LSR_RX_READY)
     then uart_intr_rx fuel else mret tt) (start_busy s) = Ret tt s'
    ∧ rx_step s s' (rx_fifo (dev s)) (map to_uchar (rx_fifo (dev s)))
    ∧ rx_fifo (dev s') = [].
Proof.
  intros Hfuel. rewrite land_rx_ready, lsr_value_rx.
  destruct (rx_fifo (dev s)) as [|b rest] eqn:Hrx.
  - exists (start_busy s). split; [done|]. split; [apply rx_step_busy|done].
  - destruct (uart_intr_rx_spec fuel (start_busy s)) as (s' & Hs' & Hstep & Hnil & _).
    { simpl. by rewrite Hrx. }
    exists s'. split; [done|]. split; [|done].
    simpl in Hstep. rewrite Hrx in Hstep.
    apply (rx_step_trans _ _ _ [] [] _ _ (rx_step_busy s) Hstep).
Qed.

(** C9 at the failing input.  In [timeout_state] one byte is pending and
    the first read of the interrupt identification register shows the
    receive-timeout code.  The read of the quirk goes through
    [uart_getchar], which takes the pending byte from the receive holding
    register; the handler throws it away and [consoleintr] is never
    called: the byte is not forwarded. *)
Lemma rx_timeout_drops_byte :
  rx_fifo (dev timeout_state) = [65]
  ∧ rhr_reads (state_of (uart_intr 40 timeout_state)) = [65]
  ∧ delivered (state_of (uart_intr 40 timeout_state)) = []
  ∧ rx_fifo (dev (state_of (uart_intr 40 timeout_state))) = [].
Proof. vm_compute. done. Qed.

(** X18. With enough iterations for the bytes pending in the
    device, [uart_intr] hands to [consoleintr], each exactly once and in
    order, all pending bytes, except that when its first read of the
    interrupt identification register carries the receive-timeout code
    (IIR & 0x3f = 0x0c) the oldest pending byte is read and thrown away
    first.  It reads the receive holding register exactly once per pending
    byte and not again once the line status register shows no data.  When
    moreover the ring cursors are inside the array, the handler returns. *)
Theorem uart_intr_forwards (fuel : nat) (s : state) :
  (length (rx_fifo (dev s)) < fuel)%nat →
  delivered (state_of (uart_intr fuel s)) =
    delivered s ++
    map to_uchar
      (if Z.land (to_uchar (iir_in (dev s) (iir_n (dev s)))) 0x3f =? 0x0c
       then tail (rx_fifo (dev s)) else rx_fifo (dev s))
  ∧ rhr_reads (state_of (uart_intr fuel s)) =
      rhr_reads s ++ map to_uchar (rx_fifo (dev s))
  ∧ rx_fifo (dev (state_of (uart_intr fuel s))) = []
  ∧ (ring_ok s → (32 < fuel)%nat →
     ∃ s', uart_intr fuel s = Ret tt s').
Proof.
  intros Hfuel. rewrite uart_intr_unfold.
  erewrite bind_Ret by apply ReadReg_IIR.
  set (v1 := to_uchar (iir_in (dev s) (iir_n (dev s)))).
  destruct (uart_intr_quirk v1 (iir_taken s)) as (s2 & got & Hs2 & Hstep2 & Hrx2).
  erewrite bind_Ret by apply Hs2.
  erewrite bind_Ret by apply ReadReg_LSR. fold (start_busy s2).
  destruct (uart_intr_receive fuel s2) as (s4 & Hs4 & Hstep4 & Hnil).
  { pose proof Hstep2 as [Hx _]. simpl in Hx. rewrite Hx, length_app in Hfuel. lia. }
  erewrite bind_Ret by apply Hs4.
  pose proof (rx_step_trans _ _ _ _ _ _ _
    (rx_step_trans _ _ _ _ _ _ _ (rx_step_iir s) Hstep2) Hstep4)
    as (Hx & Hr & Hd & Hb & Hw & Hc).
  simpl in Hx, Hr, Hd, Hrx2. rewrite Hnil, app_nil_r in Hx.
  rewrite <- Hx in Hr. rewrite Hrx2 in Hd.
  pose proof (uart_intr_tail_quiet fuel (to_uchar (lsr_value (dev s2))) s4)
    as (Hq1 & Hq2 & Hq3).
  rewrite Hq1, Hq2, Hq3, Hr, Hd.
  split; [done|]. split; [done|]. split; [done|].
  intros (Hlen & Hwr & Hrr) Hf32. apply uart_intr_tail_returns; [|done].
  unfold ring_ok. by rewrite Hb, Hw, Hc.
Qed.

Lemma uart_intr_forwards_witness :
  (length (rx_fifo (dev rx_state)) < 40)%nat
  ∧ delivered (state_of (uart_intr 40 rx_state)) = [104; 105]
  ∧ rhr_reads (state_of (uart_intr 40 rx_state)) = [104; 105]
  ∧ rx_fifo (dev (state_of (uart_intr 40 rx_state))) = []
  ∧ (ring_ok rx_state → (32 < 40)%nat →
     ∃ s', uart_intr 40 rx_state = Ret tt s').
Proof.
  split; [simpl; lia|].
  apply (uart_intr_forwards 40 rx_state). simpl. lia.
Defined.

(** ** The ring buffer along a run of the driver *)

Lemma ring_same_refl s : ring_same s s.
Proof. done. Qed.

Lemma ring_same_trans s1 s2 s3 : ring_same s1 s2 → ring_same s2 s3 → ring_same s1 s3.
Proof.
  unfold ring_same. intros (? & ? & ? & ? & ?) (? & ? & ? & ? & ?).
  repeat split; congruence.
Qed.

Lemma ring_same_inv s s' : ring_same s s' → ring_inv s → ring_inv s'.
Proof.
  intros (Hb & Hw & Hr & He & Ht) [].
  split; rewrite ?Hb, ?Hw, ?Hr, ?He, ?Ht; done.
Qed.

Lemma ring_same_emit e s :
  buf_stored e = None → thr_write e = None → ring_same s (state_of (emit e s)).
Proof.
  intros H1 H2. unfold ring_same, enqueued, transmitted. simpl.
  rewrite !omap_app. simpl. by rewrite H1, H2, !app_nil_r.
Qed.

Lemma ring_same_ReadReg reg s : ring_same s (state_of (ReadReg reg s)).
Proof.
  unfold ring_same, enqueued, transmitted, ReadReg.
  destruct (dev_read reg (dev s)). simpl.
  rewrite !omap_app. simpl. by rewrite !app_nil_r.
Qed.

Lemma uart_getchar_ring : preserves ring_same uart_getchar.
Proof.
  unfold uart_getchar.
  apply preserves_bind; [apply ring_same_trans|intros s; apply ring_same_ReadReg|].
  intros lsr. apply preserves_if; [intros s; apply ring_same_ReadReg|].
  apply preserves_ret, ring_same_refl.
Qed.

Lemma uart_intr_rx_ring fuel : preserves ring_same (uart_intr_rx fuel).
Proof.
  induction fuel as [|fuel IH]; [intros s; apply ring_same_refl|].
  simpl.
  apply preserves_bind; [apply ring_same_trans|apply uart_getchar_ring|].
  intros c. apply preserves_if; [apply preserves_ret, ring_same_refl|].
  apply preserves_bind; [apply ring_same_trans| |done].
  intros s. by apply ring_same_emit.
Qed.

(** One round of the pump keeps the invariant. *)
Lemma ring_inv_busy s : ring_inv s → ring_inv (start_busy s).
Proof.
  apply ring_same_inv. unfold ring_same, enqueued, transmitted. simpl.
  rewrite !omap_app. simpl. by rewrite !app_nil_r.
Qed.

Lemma buf_at_lookup s i c :
  buf_at s i = Some c → 0 ≤ i < 32 ∧ uart_tx_buf s !! Z.to_nat i = Some c.
Proof.
  unfold buf_at, in_buf, UART_TX_BUF_SIZE.
  destruct (0 <=? i) eqn:H1; destruct (i <? 32) eqn:H2; simpl; try done.
  intros Hl. split; [lia|done].
Qed.

Lemma ring_inv_pop s c :
  ring_inv s → uart_tx_w s ≠ uart_tx_r s → buf_at s (uart_tx_r s) = Some c →
  ring_inv (start_pop s c).
Proof.
  intros [] Hne [Hr Hc]%buf_at_lookup.
  assert (is_byte c) as Hbyte by (by eapply Forall_lookup_1).
  assert (transmitted (start_pop s c) = transmitted s ++ [c]) as Ht.
  { unfold transmitted. simpl. rewrite omap_app. simpl. by rewrite to_uchar_byte. }
  assert (enqueued (start_pop s c) = enqueued s) as He.
  { unfold enqueued. simpl. rewrite omap_app. simpl. by rewrite app_nil_r. }
  assert (uart_tx_r (start_pop s c) = (uart_tx_r s + 1) mod 32) as Hr'
    by (by apply next_index).
  split; rewrite ?Ht, ?He, ?Hr'; simpl uart_tx_buf; simpl uart_tx_w; try done.
  - apply Z.mod_pos_bound. lia.
  - rewrite length_app, Nat2Z.inj_add. simpl length.
    rewrite inv_count0 at 1.
    change (Z.of_nat 1) with 1. by rewrite Zplus_mod_idemp_l.
  - intros Hw. destruct (inv_inside0 Hw) as [Htx Hle].
    rewrite Z.mod_small by lia. split; [|lia].
    rewrite Z2Nat.inj_add by lia. change (Z.to_nat 1) with 1%nat.
    rewrite Nat.add_1_r. erewrite take_S_r by done. by rewrite Htx.
  - intros _. rewrite length_app. simpl. lia.
Qed.

Lemma uart_start_inv fuel s : ring_inv s → ring_inv (state_of (uart_start fuel s)).
Proof.
  revert s. induction fuel as [|fuel IH]; intros s Hinv; [done|].
  destruct (uart_start_cases fuel s)
    as [[_ ->]|[(_ & _ & ->)|[(_ & _ & _ & ->)|(c & ? & _ & ? & ->)]]]; simpl.
  - done.
  - by apply ring_inv_busy.
  - by apply ring_inv_busy.
  - by apply IH, ring_inv_pop.
Qed.

(** In a state that satisfies the invariant the pump stays inside the
    array. *)
Lemma uart_start_in_bounds fuel s i s' :
  ring_inv s → uart_start fuel s ≠ OutOfBounds i s'.
Proof.
  revert s. induction fuel as [|fuel IH]; intros s Hinv; [done|].
  destruct (uart_start_cases fuel s)
    as [[_ ->]|[(_ & _ & ->)|[(_ & _ & Hnone & _)|(c & ? & _ & ? & ->)]]];
    try done.
  - destruct (buf_at_in_range s (uart_tx_r s)) as [c Hc];
      [apply Hinv..|congruence].
  - by apply IH, ring_inv_pop.
Qed.

Lemma ring_inv_acquired s : ring_inv s → ring_inv (acquired s).
Proof. apply ring_same_inv. by apply (ring_same_emit EvAcquire). Qed.

Lemma ring_inv_blocked s : ring_inv s → ring_inv (put_blocked s).
Proof. apply ring_same_inv. by apply (ring_same_emit EvSleep). Qed.

Lemma ring_inv_released s : ring_inv s → ring_inv (state_of (emit EvRelease s)).
Proof. apply ring_same_inv. by apply ring_same_emit. Qed.

Lemma in_buf_range i : in_buf i = true → 0 ≤ i < 32.
Proof. unfold in_buf, UART_TX_BUF_SIZE. lia. Qed.

(** Storing a byte at the write cursor keeps the invariant. *)
Lemma ring_inv_stored s c :
  ring_inv s → full s = false → in_buf (uart_tx_w s) = true →
  ring_inv (put_stored s c).
Proof.
  intros [] Hfull Hw%in_buf_range.
  assert (transmitted (put_stored s c) = transmitted s) as Ht.
  { unfold transmitted. simpl. rewrite omap_app. simpl. by rewrite app_nil_r. }
  assert (enqueued (put_stored s c) = enqueued s ++ [to_uchar c]) as He.
  { unfold enqueued. simpl. by rewrite omap_app. }
  pose proof (to_uchar_range c) as Hc.
  split; rewrite ?Ht, ?He; simpl; rewrite ?to_int_small by lia; try done.
  - by rewrite length_insert.
  - by apply Forall_insert.
  - lia.
  - rewrite Z2Nat.inj_add by lia. change (Z.to_nat 1) with 1%nat.
    rewrite Nat.add_1_r.
    erewrite take_S_r by (apply list_lookup_insert_eq; lia).
    by rewrite take_insert_ge, inv_enq0 by lia.
  - intros Hw'. destruct inv_inside0 as [Htx Hle]; [lia|].
    split; [|lia]. rewrite take_insert_ge by lia. done.
  - intros Hw'. destruct inv_inside0 as [Htx Hle]; [lia|].
    rewrite Htx, length_take_le by lia.
    unfold full in Hfull. rewrite to_int_small in Hfull by lia.
    replace (uart_tx_w s + 1) with 32 in Hfull by lia.
    change (Z.rem 32 UART_TX_BUF_SIZE) with 0 in Hfull. lia.
Qed.

Lemma uart_putchar_loop_inv fuel c s :
  ring_inv s → ring_inv (state_of (uart_putchar_loop fuel c s)).
Proof.
  intros Hinv.
  destruct (uart_putchar_loop_cases fuel c s)
    as [[_ ->]|[(_ & _ & ->)|(Hfull & Hin & ->)]]; simpl.
  - by apply ring_inv_blocked.
  - done.
  - pose proof (uart_start_inv fuel (put_stored s c)
        (ring_inv_stored s c Hinv Hfull Hin)) as H.
    unfold mbind, M_mbind, M_bind.
    destruct (uart_start fuel (put_stored s c)); simpl in *; try done.
    by apply ring_inv_released.
Qed.

Lemma uart_putchar_inv fuel c s :
  ring_inv s → ring_inv (state_of (uart_putchar fuel c s)).
Proof.
  intros Hinv. rewrite uart_putchar_unfold.
  destruct (nonzero (panicked s)); simpl; [by apply ring_inv_acquired|].
  by apply uart_putchar_loop_inv, ring_inv_acquired.
Qed.

Lemma keeps_ring_inv_trans s1 s2 s3 :
  keeps_ring_inv s1 s2 → keeps_ring_inv s2 s3 → keeps_ring_inv s1 s3.
Proof. unfold keeps_ring_inv. auto. Qed.

Lemma ring_same_keeps {A} (m : M A) :
  preserves ring_same m → preserves keeps_ring_inv m.
Proof. intros H s. unfold keeps_ring_inv. apply ring_same_inv, H. Qed.

Lemma uart_intr_inv fuel s : ring_inv s → ring_inv (state_of (uart_intr fuel s)).
Proof.
  revert s. change (preserves keeps_ring_inv (uart_intr fuel)).
  unfold uart_intr.
  repeat first
    [ apply ring_same_keeps, uart_getchar_ring
    | apply ring_same_keeps, uart_intr_rx_ring
    | apply preserves_bind; [apply keeps_ring_inv_trans| |intros ?]
    | apply preserves_if
    | apply preserves_ret; by intros ??
    | intros s ?; by apply uart_start_inv
    | apply ring_same_keeps;
      first [ apply uart_getchar_ring | apply uart_intr_rx_ring
            | intros s; apply ring_same_ReadReg
            | intros s; by apply ring_same_emit ] ].
Qed.

Lemma boot_inv d : ring_inv (boot d).
Proof.
  split; try done.
  repeat constructor; unfold is_byte; lia.
Qed.

(** A store past the end of the array is the store of the loop of
    [uart_putchar] at a write cursor that has left the array. *)
Lemma uart_putchar_loop_stray fuel c s i s1 :
  ring_inv s → uart_putchar_loop fuel c s = OutOfBounds i s1 →
  s1 = s ∧ i = uart_tx_w s ∧ 32 ≤ uart_tx_w s.
Proof.
  intros Hinv.
  destruct (uart_putchar_loop_cases fuel c s)
    as [[_ ->]|[(_ & Hout & ->)|(Hfull & Hin & ->)]]; [done| |].
  - intros [= <- <-]. split; [done|]. split; [done|].
    pose proof Hinv as []. unfold in_buf, UART_TX_BUF_SIZE in Hout. lia.
  - pose proof (uart_start_in_bounds fuel (put_stored s c)) as Hst.
    unfold mbind, M_mbind, M_bind.
    destruct (uart_start fuel (put_stored s c)) eqn:E; try done.
    intros [= -> ->]. exfalso.
    eapply Hst; [by apply ring_inv_stored|done].
Qed.

Lemma uart_putchar_stray fuel c s i s1 :
  ring_inv s → uart_putchar fuel c s = OutOfBounds i s1 →
  s1 = acquired s ∧ i = uart_tx_w s ∧ 32 ≤ uart_tx_w s.
Proof.
  intros Hinv. rewrite uart_putchar_unfold.
  destruct (nonzero (panicked s)); [done|].
  intros H. by apply uart_putchar_loop_stray in H; [|apply ring_inv_acquired].
Qed.

(** Past the array the write cursor only counts. *)
Lemma ring_inv_rest fuel s :
  ring_inv s → 32 ≤ uart_tx_w s → uart_tx_w s + 1 < 2 ^ 31 →
  ring_inv (state_of (uart_putchar_rest fuel s)).
Proof.
  intros Hinv Hw Hlt.
  set (s1 := State (uart_tx_buf s) (to_int (uart_tx_w s + 1)) (uart_tx_r s)
                   (panicked s) (dev s) (trace s)).
  assert (ring_inv s1) as H1.
  { destruct Hinv. subst s1. split; try done.
    - simpl. rewrite to_int_small by lia. lia.
    - change (enqueued s =
              take (Z.to_nat (to_int (uart_tx_w s + 1))) (uart_tx_buf s)).
      rewrite to_int_small by lia. by rewrite inv_enq0, !take_ge by lia.
    - simpl. rewrite to_int_small by lia. lia.
    - intros _. apply inv_wrapped0. lia. }
  pose proof (uart_start_inv fuel s1 H1) as H.
  unfold uart_putchar_rest. munfold. fold s1.
  destruct (uart_start fuel s1); simpl in *; try done.
  by apply ring_inv_released.
Qed.

Lemma reachable_inv s : reachable s → ring_inv s.
Proof.
  induction 1
    as [d|fuel c s _ IH _|fuel c s i s1 _ IH Hout Hlt|fuel c s _ IH _
       |fuel c s i s1 _ IH Hout Hlt|fuel s _ IH|fuel s _ IH|s _ IH].
  - apply boot_inv.
  - by apply uart_putchar_inv.
  - destruct (uart_putchar_stray _ _ _ _ _ IH Hout) as (-> & _ & Hw).
    apply ring_inv_rest; [by apply ring_inv_acquired|done..].
  - by apply uart_putchar_loop_inv.
  - destruct (uart_putchar_loop_stray _ _ _ _ _ IH Hout) as (-> & _ & Hw).
    by apply ring_inv_rest.
  - by apply uart_start_inv.
  - by apply uart_intr_inv.
  - by destruct IH.
Qed.

(** The state in which a sequence of writes returns is a state of the
    driver. *)
Lemma reachable_putchars fuel cs s s' :
  reachable s → uart_putchars fuel cs s = Ret tt s' → reachable s'.
Proof.
  revert s. induction cs as [|c cs IH]; intros s Hs; [by intros [= <-]|].
  simpl. unfold mbind, M_mbind, M_bind.
  destruct (uart_putchar fuel c s) as [[] s1| | |] eqn:E; try done.
  apply IH. change s1 with (state_of (Ret tt s1)). rewrite <- E.
  apply reach_putchar; [done|by rewrite E].
Qed.

(** ** Capacity *)

Ltac zmod := Z.quot_rem_to_equations; Z.div_mod_to_equations; lia.

Lemma full_acquired s : full (acquired s) = full s.
Proof. done. Qed.

Lemma uart_putchar_full fuel c s :
  panicked s = 0 → full s = true →
  uart_putchar fuel c s = Blocked (put_blocked (acquired s)).
Proof.
  intros Hp Hf. rewrite uart_putchar_unfold. unfold nonzero. rewrite Hp. simpl.
  destruct (uart_putchar_loop_cases fuel c (acquired s))
    as [[_ ->]|[(H & _)|(H & _)]]; [done|..];
    rewrite full_acquired in H; congruence.
Qed.

(** Once the write cursor has left the array, the loop of [uart_putchar]
    sleeps or stores outside the array. *)
Lemma uart_putchar_loop_outside fuel c s :
  in_buf (uart_tx_w s) = false →
  uart_putchar_loop fuel c s = Blocked (put_blocked s)
  ∨ uart_putchar_loop fuel c s = OutOfBounds (uart_tx_w s) s.
Proof.
  intros Hout.
  destruct (uart_putchar_loop_cases fuel c s)
    as [[_ ->]|[(_ & _ & ->)|(_ & Hin & _)]]; [by left|by right|congruence].
Qed.

Lemma full_ring_reachable : reachable full_ring.
Proof.
  apply (reachable_putchars 2 bytes_1_32 (boot (quiet_device clog_line)));
    [apply reach_boot|by vm_compute].
Qed.

(** C4 at the failing input.  After [uart_init] the bytes 1 to 32 are
    written on [clog_line]; every call returns.  In the state reached 31
    bytes are held and a 33rd call of [uart_putchar] sleeps, as the claim
    says.  The pump then runs on 32 idle readings and returns: it has
    removed all 31 bytes and sent the byte at index 0 a second time, so
    that no byte written is left unsent.  The woken call still finds the
    buffer full and sleeps again.  However far the pump has got, the woken
    call sleeps or stores at index 32, outside the array: the write cursor
    stays at 32. *)
Theorem full_buffer_stays_blocked :
  reachable full_ring
  ∧ held full_ring = 31
  ∧ (∀ fuel c, uart_putchar fuel c full_ring = Blocked asleep)
  ∧ uart_start 40 asleep = Ret tt drained
  ∧ reachable drained
  ∧ enqueued drained = bytes_1_32
  ∧ transmitted drained = bytes_1_32 ++ [1]
  ∧ held drained = -1
  ∧ (∀ fuel c, uart_putchar_loop fuel c drained = Blocked (put_blocked drained))
  ∧ (∀ n fuel c,
       uart_putchar_loop fuel c (state_of (uart_start n asleep))
         = Blocked (put_blocked (state_of (uart_start n asleep)))
       ∨ uart_putchar_loop fuel c (state_of (uart_start n asleep))
         = OutOfBounds 32 (state_of (uart_start n asleep))).
Proof.
  assert (∀ fuel c, uart_putchar fuel c full_ring = Blocked asleep) as Hsleep.
  { intros fuel c. apply uart_putchar_full; by vm_compute. }
  assert (reachable asleep) as Hasleep.
  { pose proof (reach_putchar 1 0 full_ring full_ring_reachable) as H.
    rewrite Hsleep in H. apply (H I). }
  split; [apply full_ring_reachable|]. split; [by vm_compute|].
  split; [done|]. split; [by vm_compute|].
  split; [apply (reach_start 40 asleep Hasleep)|].
  split; [by vm_compute|]. split; [by vm_compute|]. split; [by vm_compute|].
  split.
  - intros fuel c.
    destruct (uart_putchar_loop_cases fuel c drained)
      as [[_ ->]|[(H & _)|(H & _)]]; [done|..]; by vm_compute in H.
  - intros n fuel c.
    pose proof (uart_start_frame n asleep) as (_ & Hw & _).
    assert (uart_tx_w (state_of (uart_start n asleep)) = 32) as Hw32
      by (rewrite Hw; by vm_compute).
    destruct (uart_putchar_loop_outside fuel c (state_of (uart_start n asleep)))
      as [H|H]; [by rewrite Hw32|by left|right].
    by rewrite H, Hw32.
Qed.

(** ** The write cursor leaves the array

    [uart_putchar] advances [uart_tx_w] without reducing it modulo the
    buffer size, whereas [uart_start] reduces [uart_tx_r].  Until 32 bytes
    have been written the two cursors behave as those of a ring buffer. *)


(** X6. While the write cursor is inside the array, the pump returns
    after sending at most 31 bytes, whatever the line shows. *)
Lemma uart_start_bounded_inside fuel s :
  reachable s → uart_tx_w s < 32 → (32 ≤ fuel)%nat →
  ∃ s', uart_start fuel s = Ret tt s'
    ∧ (length (dequeued s') ≤ length (dequeued s) + 31)%nat.
Proof.
  intros [] %reachable_inv Hw Hfuel.
  pose proof (Z.mod_pos_bound (uart_tx_w s - uart_tx_r s) 32 ltac:(lia)).
  destruct (uart_start_returns fuel s) as (s' & Hs' & _ & Hn).
  - split; [done|]. split; [lia|done].
  - lia.
  - exists s'. split; [done|]. lia.
Qed.


(** Once the write cursor is 32 and the line stays idle, the pump never
    comes to an end: it sends one more byte in every round. *)
Lemma uart_start_wrapped fuel s :
  ring_inv s → uart_tx_w s = 32 →
  (∀ n, (lsr_n (dev s) ≤ n)%nat → Z.testbit (lsr_in (dev s) n) 5 = true) →
  ∃ s', uart_start fuel s = Diverged s'
    ∧ length (transmitted s') = (length (transmitted s) + fuel)%nat.
Proof.
  revert s. induction fuel as [|fuel IH]; intros s Hinv Hw Hidle.
  { exists s. split; [done|lia]. }
  assert (tx_idle (dev s) = true) as Htx
    by (unfold tx_idle; rewrite lsr_value_tx; by apply Hidle).
  destruct (uart_start_cases fuel s)
    as [[He _]|[(_ & Hb & _)|[(_ & _ & Hnone & _)|(c & Hne & _ & Hc & ->)]]].
  - destruct Hinv. lia.
  - congruence.
  - destruct (buf_at_in_range s (uart_tx_r s)) as [c Hc];
      [apply Hinv..|congruence].
  - destruct (IH (start_pop s c)) as (s' & Hs' & Hlen).
    + by apply ring_inv_pop.
    + done.
    + intros n Hn. apply Hidle. simpl in Hn. lia.
    + exists s'. split; [done|]. rewrite Hlen.
      unfold transmitted. simpl. rewrite omap_app, length_app. simpl. lia.
Qed.

(** C1 at the failing input.  All 32 calls of [uart_putchar] return, none
    ever finds the buffer full, the bytes 1 to 32 are stored in order, and
    yet 33 bytes are written to the transmit holding register: after the
    32nd byte the pump sends the first byte a second time. *)
Theorem fifo_broken_at_wrap :
  wrap_run = Ret tt (state_of wrap_run)
  ∧ enqueued (state_of wrap_run) = bytes_1_32
  ∧ transmitted (state_of wrap_run) = bytes_1_32 ++ [1]
  ∧ uart_tx_w (state_of wrap_run) = 32
  ∧ uart_tx_r (state_of wrap_run) = 1.
Proof. vm_compute. done. Qed.

Lemma wrapped_reachable : reachable wrapped.
Proof.
  apply (reachable_putchars 2 bytes_1_32 (boot (quiet_device (idle_but 32))));
    [apply reach_boot|by vm_compute].
Qed.

Lemma queued3_reachable : reachable queued3.
Proof.
  apply (reachable_putchars 1 [10; 20; 30]
           (boot (quiet_device (λ n, if (n <? 3)%nat then 0 else 0x20))));
    [apply reach_boot|by vm_compute].
Qed.

Lemma sent_all_reachable : reachable sent_all.
Proof.
  apply (reachable_putchars 2 bytes_1_32
           (boot (quiet_device
                    (λ n, if (n =? 32)%nat || (n =? 35)%nat then 0 else 0x20))));
    [apply reach_boot|by vm_compute].
Qed.

(** C5 at the failing input.  [sent_all] is a state the driver reaches in
    which the buffer is empty: each of the 32 bytes written has been sent,
    none is held, and the two cursors are equal modulo 32.  The write
    cursor is 32 and the read cursor 0, so the test of the pump does not
    find them equal: a call of [uart_start] writes the stale bytes at the
    indices 0 and 1 to the transmit holding register, moves the read
    cursor to 2 and returns. *)
Theorem uart_start_sends_stale :
  reachable sent_all
  ∧ enqueued sent_all = bytes_1_32
  ∧ transmitted sent_all = bytes_1_32
  ∧ held sent_all = 0
  ∧ uart_tx_w sent_all = 32 ∧ uart_tx_r sent_all = 0
  ∧ (uart_tx_w sent_all - uart_tx_r sent_all) mod 32 = 0
  ∧ uart_start 3 sent_all = Ret tt (state_of (uart_start 3 sent_all))
  ∧ omap reg_write (trace (state_of (uart_start 3 sent_all)))
      = omap reg_write (trace sent_all) ++ [(THR, 1); (THR, 2)]
  ∧ uart_tx_r (state_of (uart_start 3 sent_all)) = 2.
Proof.
  split; [apply sent_all_reachable|]. vm_compute. done.
Qed.

(** X19. While the write cursor is inside the array, a call of
    [uart_start] made when the buffer is empty (every byte stored has been
    sent) or when the transmit-idle bit of the line status register is
    clear returns at once and is a no-op: it performs no register write,
    and the two cursors and the buffer contents are unchanged. *)
Theorem uart_start_noop_inside (fuel : nat) (s : state) :
  reachable s → uart_tx_w s < 32 →
  transmitted s = enqueued s ∨ tx_idle (dev s) = false →
  ∃ s', uart_start (S fuel) s = Ret tt s'
    ∧ omap reg_write (trace s') = omap reg_write (trace s)
    ∧ uart_tx_w s' = uart_tx_w s
    ∧ uart_tx_r s' = uart_tx_r s
    ∧ uart_tx_buf s' = uart_tx_buf s.
Proof.
  intros [] %reachable_inv Hw H. apply uart_start_noop.
  destruct H as [Heq|Hbusy]; [left|by right].
  destruct (inv_inside0 Hw) as [Htx Hle].
  assert (length (transmitted s) = length (enqueued s)) as Hlen by (by rewrite Heq).
  rewrite Htx, inv_enq0, !length_take_le in Hlen by lia. lia.
Qed.

Lemma uart_start_noop_inside_witness :
  reachable sent3 ∧ uart_tx_w sent3 < 32
  ∧ (transmitted sent3 = enqueued sent3 ∨ tx_idle (dev sent3) = false)
  ∧ ∃ s', uart_start 1 sent3 = Ret tt s'
    ∧ omap reg_write (trace s') = omap reg_write (trace sent3)
    ∧ uart_tx_w s' = uart_tx_w sent3
    ∧ uart_tx_r s' = uart_tx_r sent3
    ∧ uart_tx_buf s' = uart_tx_buf sent3.
Proof.
  assert (reachable sent3) as H.
  { apply (reachable_putchars 2 [10; 20; 30] (boot (quiet_device (λ _, 0x20))));
      [apply reach_boot|by vm_compute]. }
  assert (uart_tx_w sent3 < 32) as Hw by (by vm_compute).
  assert (transmitted sent3 = enqueued sent3 ∨ tx_idle (dev sent3) = false) as He
    by (left; by vm_compute).
  split; [done|]. split; [done|]. split; [done|].
  apply (uart_start_noop_inside 0 sent3 H Hw He).
Defined.

(** C2 at the failing input.  [wrapped] is a state the driver reaches, in
    which all 32 bytes written were sent; a call of [uart_start] in it
    never returns: after any number of rounds it is still running and has
    sent one byte per round. *)
Theorem uart_start_unbounded :
  reachable wrapped
  ∧ uart_tx_w wrapped = 32 ∧ uart_tx_r wrapped = 0
  ∧ transmitted wrapped = bytes_1_32
  ∧ ∀ fuel, ∃ s', uart_start fuel wrapped = Diverged s'
      ∧ length (transmitted s') = (32 + fuel)%nat.
Proof.
  split; [apply wrapped_reachable|]. do 3 (split; [by vm_compute|]).
  intros fuel.
  destruct (uart_start_wrapped fuel wrapped) as (s' & Hs' & Hlen).
  - apply reachable_inv, wrapped_reachable.
  - by vm_compute.
  - intros n Hn.
    assert (lsr_n (dev wrapped) = 33%nat) as Hk by (by vm_compute).
    assert (lsr_in (dev wrapped) = idle_but 32) as -> by done.
    unfold idle_but. rewrite Hk in Hn.
    assert ((n =? 32)%nat = false) as -> by (apply Nat.eqb_neq; lia). done.
  - exists s'. split; [done|]. rewrite Hlen.
    assert (length (transmitted wrapped) = 32%nat) as -> by (by vm_compute).
    done.
Qed.

(** C3 at the failing input.  In the state [wrapped] the next call of
    [uart_putchar] does not find the buffer full and writes
    [uart_tx_buf[32]], one element past the end of the array. *)
Theorem putchar_out_of_bounds (fuel : nat) (c : Z) :
  reachable wrapped
  ∧ uart_putchar fuel c wrapped = OutOfBounds 32 (acquired wrapped).
Proof.
  split; [apply wrapped_reachable|].
  rewrite uart_putchar_unfold.
  assert (nonzero (panicked wrapped) = false) as -> by (by vm_compute).
  destruct (uart_putchar_loop_cases fuel c (acquired wrapped))
    as [[Hf _]|[(_ & _ & ->)|(_ & Hin & _)]].
  - by vm_compute in Hf.
  - f_equal.
  - by vm_compute in Hin.
Qed.

(** * More of the driver *)

(** ** What the pump sends *)

Lemma occupancy_pop s c :
  ring_ok s → uart_tx_w s ≠ uart_tx_r s →
  occupancy s = S (occupancy (start_pop s c)).
Proof.
  intros (Hlen & Hw & Hr) Hne. unfold occupancy. simpl.
  rewrite next_index by done. zmod.
Qed.

Lemma occupancy_empty s :
  ring_ok s → uart_tx_w s = uart_tx_r s ↔ occupancy s = 0%nat.
Proof. intros (Hlen & Hw & Hr). unfold occupancy. zmod. Qed.

Lemma ring_ok_pop s c : ring_ok s → ring_ok (start_pop s c).
Proof.
  intros (Hlen & Hw & Hr). split; [done|]. split; [done|].
  simpl. rewrite next_index by done. apply Z.mod_pos_bound. lia.
Qed.

Lemma idle_run_le lsr k bound : (idle_run lsr k bound ≤ bound)%nat.
Proof.
  revert k. induction bound as [|b IH]; intros k; cbn [idle_run]; [lia|].
  destruct (Z.testbit _ 5); [|lia]. specialize (IH (S k)). lia.
Qed.

(** The run of the pump from a state whose cursors are inside the array. *)
Lemma uart_start_run fuel s :
  ring_ok s → (occupancy s < fuel)%nat →
  ∃ s', uart_start fuel s = Ret tt s'
    ∧ uart_tx_buf s' = uart_tx_buf s
    ∧ uart_tx_w s' = uart_tx_w s
    ∧ uart_tx_r s' =
        (uart_tx_r s
         + Z.of_nat (idle_run (lsr_in (dev s)) (lsr_n (dev s)) (occupancy s)))
        mod 32
    ∧ transmitted s' =
        transmitted s ++
        map to_uchar
          (ring_slice (uart_tx_buf s) (uart_tx_r s)
             (idle_run (lsr_in (dev s)) (lsr_n (dev s)) (occupancy s)))
    ∧ lsr_in (dev s') = lsr_in (dev s)
    ∧ lsr_n (dev s') =
        (lsr_n (dev s)
         + idle_run (lsr_in (dev s)) (lsr_n (dev s)) (occupancy s)
         + (if (idle_run (lsr_in (dev s)) (lsr_n (dev s)) (occupancy s)
                <? occupancy s)%nat then 1 else 0))%nat.
Proof.
  revert s. induction fuel as [|fuel IH]; intros s Hok Hfuel; [lia|].
  pose proof Hok as (Hlen & Hw & Hr).
  destruct (uart_start_cases fuel s)
    as [[He ->]|[(Hne & Hb & ->)|[(_ & _ & Hnone & _)|(c & Hne & Hi & Hc & ->)]]].
  - apply occupancy_empty in He; [|done]. rewrite He. simpl.
    exists s. rewrite Z.add_0_r, Z.mod_small, app_nil_r by lia.
    repeat split; lia.
  - destruct (occupancy s) as [|occ] eqn:Hocc.
    { apply occupancy_empty in Hocc; done. }
    unfold tx_idle in Hb. rewrite lsr_value_tx in Hb. cbn [idle_run]. rewrite Hb.
    exists (start_busy s). rewrite Z.add_0_r, Z.mod_small by lia.
    repeat split; simpl; try lia.
    unfold transmitted. simpl. rewrite omap_app. simpl. by rewrite !app_nil_r.
  - destruct (buf_at_in_range s (uart_tx_r s) Hlen Hr) as [c Hc]. congruence.
  - rewrite (occupancy_pop s c) in * by done.
    set (occ := occupancy (start_pop s c)) in *.
    unfold tx_idle in Hi. rewrite lsr_value_tx in Hi. cbn [idle_run]. rewrite Hi.
    destruct (IH (start_pop s c)) as (s' & -> & Hb' & Hw' & Hr' & Ht' & Hl' & Hn').
    { by apply ring_ok_pop. }
    { fold occ. lia. }
    fold occ in Hr', Ht', Hn'. simpl in Hr', Ht', Hl', Hn', Hb', Hw'.
    set (n := idle_run (lsr_in (dev s)) (S (lsr_n (dev s))) occ) in *.
    exists s'. split; [done|]. split; [done|]. split; [done|].
    apply buf_at_lookup in Hc as [_ Hc].
    split; [|split; [|split; [done|]]].
    + rewrite Hr', next_index by done. rewrite Zplus_mod_idemp_l. f_equal. lia.
    + rewrite Ht'. unfold transmitted. simpl. rewrite omap_app. simpl.
      rewrite Hc. simpl. rewrite next_index by done. by rewrite <- app_assoc.
    + rewrite Hn'. change (S n <? S occ)%nat with (n <? occ)%nat. lia.
Qed.

(** X1. Started with both cursors inside the array, [uart_start] returns
    whatever the line status register shows.  It sends the bytes found
    from the read cursor on, going round the array, one per line status
    reading that shows transmit-idle, and stops at the first reading that
    does not or when it reaches the write cursor: the number of bytes sent
    is the length of the run of idle readings, at most the number of bytes
    between the cursors, hence at most 31.  The read cursor advances by
    that number modulo 32; the buffer and the write cursor are
    unchanged. *)
Theorem uart_start_sends (fuel : nat) (s : state) :
  ring_ok s → (occupancy s < fuel)%nat →
  ∃ s' n,
    uart_start fuel s = Ret tt s'
    ∧ n = idle_run (lsr_in (dev s)) (lsr_n (dev s)) (occupancy s)
    ∧ (n ≤ occupancy s ≤ 31)%nat
    ∧ transmitted s' =
        transmitted s ++ map to_uchar (ring_slice (uart_tx_buf s) (uart_tx_r s) n)
    ∧ uart_tx_r s' = (uart_tx_r s + Z.of_nat n) mod 32
    ∧ uart_tx_w s' = uart_tx_w s
    ∧ uart_tx_buf s' = uart_tx_buf s.
Proof.
  intros Hok Hfuel.
  destruct (uart_start_run fuel s Hok Hfuel) as (s' & Hs' & Hb & Hw & Hr & Ht & _).
  exists s', (idle_run (lsr_in (dev s)) (lsr_n (dev s)) (occupancy s)).
  split; [done|]. split; [done|]. split; [|done].
  split; [apply idle_run_le|].
  destruct Hok as (_ & ? & ?). unfold occupancy. zmod.
Qed.

Lemma uart_start_sends_witness :
  ring_ok round_state ∧ (occupancy round_state < 10)%nat
  ∧ ∃ s' n,
    uart_start 10 round_state = Ret tt s'
    ∧ n = idle_run (lsr_in (dev round_state)) (lsr_n (dev round_state))
            (occupancy round_state)
    ∧ (n ≤ occupancy round_state ≤ 31)%nat
    ∧ transmitted s' =
        transmitted round_state ++
        map to_uchar (ring_slice (uart_tx_buf round_state) (uart_tx_r round_state) n)
    ∧ uart_tx_r s' = (uart_tx_r round_state + Z.of_nat n) mod 32
    ∧ uart_tx_w s' = uart_tx_w round_state
    ∧ uart_tx_buf s' = uart_tx_buf round_state.
Proof.
  assert (ring_ok round_state) as Hok by (repeat split; simpl; lia).
  assert (occupancy round_state < 10)%nat as Hfuel by (vm_compute; lia).
  split; [done|]. split; [done|].
  apply (uart_start_sends 10 round_state Hok Hfuel).
Defined.

(** Four bytes wait, at the indices 30, 31, 0 and 1; the line takes
    three. *)
Example uart_start_round :
  occupancy round_state = 4%nat
  ∧ transmitted (state_of (uart_start 10 round_state)) = [130; 131; 100]
  ∧ uart_tx_r (state_of (uart_start 10 round_state)) = 1.
Proof. by vm_compute. Qed.

(** ** What the pump never does *)

(** X2. However a call of [uart_start] ends, and in whatever state it is
    made, it has stored nothing into the buffer and moved neither the
    write cursor nor the panic flag; all it has done is read the line
    status register, load bytes from the buffer, write them to the
    transmit holding register and call wakeup, once per byte written. It
    has not touched the lock and it is never suspended. *)
Theorem uart_start_wakes_per_byte (fuel : nat) (s : state) :
  ∃ evs,
    trace (state_of (uart_start fuel s)) = trace s ++ evs
    ∧ Forall (λ e, pump_event e = true) evs
    ∧ length (omap woken evs) = length (omap thr_write evs)
    ∧ length (omap buf_loaded evs) = length (omap thr_write evs)
    ∧ omap buf_stored evs = []
    ∧ uart_tx_buf (state_of (uart_start fuel s)) = uart_tx_buf s
    ∧ uart_tx_w (state_of (uart_start fuel s)) = uart_tx_w s
    ∧ panicked (state_of (uart_start fuel s)) = panicked s
    ∧ ∀ s', uart_start fuel s ≠ Blocked s'.
Proof.
  revert s. induction fuel as [|fuel IH]; intros s.
  { exists []. simpl. by rewrite app_nil_r. }
  destruct (uart_start_cases fuel s)
    as [[_ ->]|[(_ & _ & ->)|[(_ & _ & _ & ->)|(c & _ & _ & _ & ->)]]].
  - exists []. simpl. by rewrite app_nil_r.
  - eexists. simpl. split; [done|]. repeat split; by repeat constructor.
  - eexists. simpl. split; [done|]. repeat split; by repeat constructor.
  - destruct (IH (start_pop s c)) as (evs & Ht & Hev & Hn1 & Hn2 & Hst & Hb & Hw & Hp & Hnb).
    eexists. rewrite Ht. simpl. rewrite <- app_assoc. split; [done|].
    rewrite Hb, Hw, Hp. simpl.
    split; [by repeat constructor|].
    split; [f_equal; exact Hn1|]. split; [f_equal; exact Hn2|]. done.
Qed.

(** ** The cursors along a run of the driver *)




(** After the 33rd store the write cursor is 33, and the pump has sent
    two stale bytes. *)
Example strayed_cursors :
  uart_putchar 3 33 sent_all = OutOfBounds 32 (acquired sent_all)
  ∧ uart_tx_w strayed = 33 ∧ uart_tx_r strayed = 2
  ∧ transmitted strayed = bytes_1_32 ++ [1; 2].
Proof. vm_compute. done. Qed.


Lemma uart_start_bounded_inside_witness :
  reachable queued3 ∧ uart_tx_w queued3 < 32 ∧ (32 ≤ 32)%nat
  ∧ ∃ s', uart_start 32 queued3 = Ret tt s'
    ∧ (length (dequeued s') ≤ length (dequeued queued3) + 31)%nat.
Proof.
  pose proof queued3_reachable as H.
  assert (uart_tx_w queued3 < 32) as Hw by (by vm_compute).
  split; [done|]. split; [done|]. split; [lia|].
  apply (uart_start_bounded_inside 32 queued3 H Hw). lia.
Defined.




Example drain_queued3 :
  enqueued queued3 = [10; 20; 30] ∧ transmitted queued3 = []
  ∧ transmitted (state_of (uart_start 5 queued3)) = [10; 20; 30].
Proof. by vm_compute. Qed.

(** ** [uart_putchar] on an idle and on a busy line *)

Lemma line_shows_now b k d :
  line_shows b (S k) d →
  Z.testbit (lsr_value d) 5 = b ∧ line_shows b k (lsr_read d).
Proof.
  intros H. split.
  - rewrite lsr_value_tx. specialize (H 0%nat ltac:(lia)). by rewrite Nat.add_0_r in H.
  - intros i Hi. specialize (H (S i) ltac:(lia)). simpl.
    by replace (S (lsr_n d + i)) with (lsr_n d + S i)%nat by lia.
Qed.

Lemma uart_putchar_idle fuel c s :
  panicked s = 0 → length (uart_tx_buf s) = 32%nat →
  0 ≤ uart_tx_w s < 31 → uart_tx_r s = uart_tx_w s →
  tx_idle (dev s) = true → (2 ≤ fuel)%nat →
  uart_putchar fuel c s = Ret tt (put_sent s c).
Proof.
  intros Hp Hlen Hw Hr Hidle Hfuel.
  destruct fuel as [|[|fuel]]; [lia..|].
  rewrite uart_putchar_unfold. unfold nonzero. rewrite Hp. simpl negb. cbv iota.
  destruct (uart_putchar_loop_cases (S (S fuel)) c (acquired s))
    as [[Hf _]|[(_ & Hin & _)|(_ & _ & ->)]].
  - unfold full, UART_TX_BUF_SIZE in Hf. simpl in Hf.
    rewrite to_int_small in Hf by lia. zmod.
  - unfold in_buf, UART_TX_BUF_SIZE in Hin. simpl in Hin. lia.
  - set (s1 := put_stored (acquired s) c).
    assert (uart_tx_w s1 = uart_tx_w s + 1) as Hw1
      by (simpl; rewrite to_int_small; lia).
    assert (buf_at s1 (uart_tx_r s1) = Some (to_uchar c)) as Hc.
    { unfold buf_at, in_buf, UART_TX_BUF_SIZE. simpl. rewrite Hr.
      assert ((0 <=? uart_tx_w s) && (uart_tx_w s <? 32) = true) as -> by lia.
      apply list_lookup_insert_eq. lia. }
    unfold mbind, M_mbind, M_bind.
    rewrite (uart_start_pop _ s1 (to_uchar c)); [|simpl in *; lia|done|done].
    rewrite uart_start_empty.
    2: { simpl. rewrite next_index, to_int_small by lia. zmod. }
    unfold emit, put_sent, start_pop, s1. simpl.
    rewrite Hr, next_index, to_int_small, Z.mod_small by lia.
    rewrite (to_uchar_byte (to_uchar c)) by apply to_uchar_range.
    by rewrite <- !app_assoc.
Qed.

(** X8. Bytes written one by one with [uart_putchar] while the buffer is
    empty, the write cursor stays below 31 and the line is idle go
    straight out: every call returns, the bytes (as unsigned chars) are
    written to the transmit holding register in the order of the calls,
    and the buffer is empty again. *)
Theorem uart_putchars_idle_line (fuel : nat) (cs : list Z) (s : state) :
  panicked s = 0 → length (uart_tx_buf s) = 32%nat →
  0 ≤ uart_tx_w s → uart_tx_w s + Z.of_nat (length cs) ≤ 31 →
  uart_tx_r s = uart_tx_w s →
  line_shows true (length cs) (dev s) → (2 ≤ fuel)%nat →
  ∃ s', uart_putchars fuel cs s = Ret tt s'
    ∧ transmitted s' = transmitted s ++ map to_uchar cs
    ∧ enqueued s' = enqueued s ++ map to_uchar cs
    ∧ uart_tx_w s' = uart_tx_w s + Z.of_nat (length cs)
    ∧ uart_tx_r s' = uart_tx_w s'.
Proof.
  revert s. induction cs as [|c cs IH]; intros s Hp Hlen Hw0 Hw Hr Hline Hfuel.
  { exists s. simpl. rewrite !app_nil_r. repeat split; lia. }
  simpl length in *. apply line_shows_now in Hline as [Hnow Hline].
  simpl. unfold mbind, M_mbind, M_bind.
  rewrite uart_putchar_idle by (done || lia).
  destruct (IH (put_sent s c)) as (s' & Hs' & Ht & He & Hw' & Hr'); try done.
  - simpl. by rewrite length_insert.
  - simpl. lia.
  - simpl. lia.
  - exists s'. split; [done|].
    rewrite Ht, He, Hw', Hr', Hw'. unfold transmitted, enqueued. simpl.
    rewrite !omap_app. simpl. rewrite <- !app_assoc. simpl.
    repeat split; lia.
Qed.

Lemma uart_putchars_idle_line_witness :
  panicked idle_state = 0 ∧ length (uart_tx_buf idle_state) = 32%nat
  ∧ 0 ≤ uart_tx_w idle_state
  ∧ uart_tx_w idle_state + Z.of_nat (length [72; 105; 266]) ≤ 31
  ∧ uart_tx_r idle_state = uart_tx_w idle_state
  ∧ line_shows true (length [72; 105; 266]) (dev idle_state) ∧ (2 ≤ 2)%nat
  ∧ ∃ s', uart_putchars 2 [72; 105; 266] idle_state = Ret tt s'
    ∧ transmitted s' = transmitted idle_state ++ map to_uchar [72; 105; 266]
    ∧ enqueued s' = enqueued idle_state ++ map to_uchar [72; 105; 266]
    ∧ uart_tx_w s' = uart_tx_w idle_state + Z.of_nat (length [72; 105; 266])
    ∧ uart_tx_r s' = uart_tx_w s'.
Proof.
  assert (line_shows true (length [72; 105; 266]) (dev idle_state)) as H
    by (by intros i _).
  do 5 (split; [simpl; (done || lia)|]). split; [done|]. split; [lia|].
  apply (uart_putchars_idle_line 2 [72; 105; 266] idle_state);
    simpl; (done || lia).
Defined.

Lemma uart_putchar_busy fuel c s :
  panicked s = 0 → ring_ok s → full s = false →
  tx_idle (dev s) = false → (1 ≤ fuel)%nat →
  uart_putchar fuel c s = Ret tt (put_queued s c).
Proof.
  intros Hp (Hlen & Hw & Hr) Hfull Hbusy Hfuel.
  destruct fuel as [|fuel]; [lia|].
  rewrite uart_putchar_unfold. unfold nonzero. rewrite Hp. simpl negb. cbv iota.
  destruct (uart_putchar_loop_cases (S fuel) c (acquired s))
    as [[Hf _]|[(_ & Hin & _)|(_ & _ & ->)]].
  - rewrite full_acquired in Hf. congruence.
  - unfold in_buf, UART_TX_BUF_SIZE in Hin. simpl in Hin. lia.
  - set (s1 := put_stored (acquired s) c).
    unfold mbind, M_mbind, M_bind.
    rewrite (uart_start_busy _ s1); [| |done].
    2: { unfold full, UART_TX_BUF_SIZE in Hfull. simpl.
         rewrite to_int_small in * by lia.
         apply Z.eqb_neq in Hfull. zmod. }
    unfold emit, put_queued, start_busy, s1. simpl.
    rewrite to_int_small by lia. by rewrite <- !app_assoc.
Qed.

(** X9. Bytes written one by one with [uart_putchar] while the line is
    busy and the buffer has room (the read cursor is not above the write
    cursor, which stays below 32) are all stored and none is sent: every
    call returns, the bytes (as unsigned chars) occupy the array from the
    old write cursor on, in the order of the calls, what was in the array
    below it is untouched, and the read cursor has not moved. *)
Theorem uart_putchars_busy_line (fuel : nat) (cs : list Z) (s : state) :
  panicked s = 0 → length (uart_tx_buf s) = 32%nat →
  0 ≤ uart_tx_r s ≤ uart_tx_w s → uart_tx_w s + Z.of_nat (length cs) ≤ 31 →
  line_shows false (length cs) (dev s) → (1 ≤ fuel)%nat →
  ∃ s', uart_putchars fuel cs s = Ret tt s'
    ∧ transmitted s' = transmitted s
    ∧ enqueued s' = enqueued s ++ map to_uchar cs
    ∧ uart_tx_w s' = uart_tx_w s + Z.of_nat (length cs)
    ∧ uart_tx_r s' = uart_tx_r s
    ∧ take (length cs) (drop (Z.to_nat (uart_tx_w s)) (uart_tx_buf s'))
        = map to_uchar cs
    ∧ take (Z.to_nat (uart_tx_w s)) (uart_tx_buf s')
        = take (Z.to_nat (uart_tx_w s)) (uart_tx_buf s).
Proof.
  revert s. induction cs as [|c cs IH]; intros s Hp Hlen Hr Hw Hline Hfuel.
  { exists s. simpl. rewrite !app_nil_r. repeat split; lia. }
  simpl length in *. apply line_shows_now in Hline as [Hnow Hline].
  simpl uart_putchars. unfold mbind, M_mbind, M_bind.
  rewrite uart_putchar_busy; [|done| |  |done|done].
  2: { split; [done|]. lia. }
  2: { unfold full, UART_TX_BUF_SIZE. rewrite to_int_small by lia.
       apply Z.eqb_neq. zmod. }
  destruct (IH (put_queued s c)) as (s' & Hs' & Ht & He & Hw' & Hr' & Hnew & Hold);
    try done.
  - simpl. by rewrite length_insert.
  - simpl. lia.
  - simpl. lia.
  - exists s'. split; [done|]. simpl in Hw', Hr', Hnew, Hold.
    assert (uart_tx_buf s' !! Z.to_nat (uart_tx_w s) = Some (to_uchar c)) as Hat.
    { rewrite <- (lookup_take_lt (uart_tx_buf s') (Z.to_nat (uart_tx_w s + 1))) by lia.
      rewrite Hold, lookup_take_lt by lia. apply list_lookup_insert_eq. lia. }
    rewrite Ht, He, Hw', Hr'. unfold transmitted, enqueued. simpl.
    rewrite !omap_app. simpl. rewrite !app_nil_r, <- !app_assoc. simpl.
    split; [done|]. split; [done|]. split; [lia|]. split; [done|]. split.
    + erewrite drop_S by done. simpl. f_equal.
      replace (S (Z.to_nat (uart_tx_w s))) with (Z.to_nat (uart_tx_w s + 1)) by lia.
      done.
    + apply (f_equal (take (Z.to_nat (uart_tx_w s)))) in Hold.
      rewrite !take_take, !Nat.min_l in Hold by lia.
      by rewrite take_insert_ge in Hold by lia.
Qed.

Lemma uart_putchars_busy_line_witness :
  panicked stuck_state = 0 ∧ length (uart_tx_buf stuck_state) = 32%nat
  ∧ 0 ≤ uart_tx_r stuck_state ≤ uart_tx_w stuck_state
  ∧ uart_tx_w stuck_state + Z.of_nat (length [72; 105]) ≤ 31
  ∧ line_shows false (length [72; 105]) (dev stuck_state) ∧ (1 ≤ 1)%nat
  ∧ ∃ s', uart_putchars 1 [72; 105] stuck_state = Ret tt s'
    ∧ transmitted s' = transmitted stuck_state
    ∧ enqueued s' = enqueued stuck_state ++ map to_uchar [72; 105]
    ∧ uart_tx_w s' = uart_tx_w stuck_state + Z.of_nat (length [72; 105])
    ∧ uart_tx_r s' = uart_tx_r stuck_state
    ∧ take (length [72; 105]) (drop (Z.to_nat (uart_tx_w stuck_state)) (uart_tx_buf s'))
        = map to_uchar [72; 105]
    ∧ take (Z.to_nat (uart_tx_w stuck_state)) (uart_tx_buf s')
        = take (Z.to_nat (uart_tx_w stuck_state)) (uart_tx_buf stuck_state).
Proof.
  assert (line_shows false (length [72; 105]) (dev stuck_state)) as H
    by (by intros i _).
  do 4 (split; [simpl; (done || lia)|]). split; [done|]. split; [lia|].
  apply (uart_putchars_busy_line 1 [72; 105] stuck_state);
    simpl; (done || lia).
Defined.

(** ** The synchronous write *)

Lemma iter_lsr_read_S k d :
  Nat.iter k lsr_read (lsr_read d) = Nat.iter (S k) lsr_read d.
Proof. symmetry. apply Nat.iter_succ_r. Qed.

Lemma polled_S s k : polled (start_busy s) k = polled s (S k).
Proof.
  unfold polled, start_busy. cbn [trace dev uart_tx_buf uart_tx_w uart_tx_r panicked].
  rewrite <- app_assoc. by rewrite iter_lsr_read_S.
Qed.

Lemma wait_tx_idle_spec fuel k s :
  line_shows false k (dev s) →
  Z.testbit (lsr_in (dev s) (lsr_n (dev s) + k)) 5 = true →
  (k < fuel)%nat →
  wait_tx_idle fuel s = Ret tt (polled s (S k)).
Proof.
  revert k s. induction fuel as [|fuel IH]; intros k s Hbusy Hidle Hfuel; [lia|].
  simpl. unfold mbind, M_mbind, M_bind. rewrite ReadReg_LSR, land_tx_idle.
  fold (start_busy s). rewrite lsr_value_tx.
  destruct k as [|k].
  - rewrite Nat.add_0_r in Hidle. by rewrite Hidle.
  - apply line_shows_now in Hbusy as [Hnow Hbusy]. rewrite lsr_value_tx in Hnow.
    rewrite Hnow. cbn [negb].
    rewrite (IH k (start_busy s)), polled_S; [done|done| |lia].
    change (lsr_in (dev (start_busy s))) with (lsr_in (dev s)).
    assert (lsr_n (dev (start_busy s)) + k = lsr_n (dev s) + S k)%nat as ->
      by (simpl; lia).
    done.
Qed.

Lemma wait_tx_idle_stuck fuel s :
  line_shows false fuel (dev s) → wait_tx_idle fuel s = Diverged (polled s fuel).
Proof.
  revert s. induction fuel as [|fuel IH]; intros s Hbusy.
  { unfold polled. simpl. rewrite app_nil_r. by destruct s. }
  simpl. unfold mbind, M_mbind, M_bind. rewrite ReadReg_LSR, land_tx_idle.
  fold (start_busy s).
  apply line_shows_now in Hbusy as [Hnow Hbusy]. rewrite Hnow. cbn [negb].
  by rewrite (IH (start_busy s)), polled_S.
Qed.

Lemma uart_putc_sync_unfold fuel c s :
  uart_putc_sync fuel c s =
    if nonzero (panicked s)
    then Diverged (state_of (emit EvPushOff s))
    else (wait_tx_idle fuel;; WriteReg THR c;; emit EvPopOff)
           (state_of (emit EvPushOff s)).
Proof.
  unfold uart_putc_sync. munfold. simpl.
  destruct (nonzero (panicked s)); [by rewrite spin_diverges|done].
Qed.

(** X10. Outside a panic, when the line is busy at [k] readings of the line
    status register and idle at the next, [uart_putc_sync] returns after
    exactly [k + 1] reads of that register and one write of the
    transmit holding register, of its argument as an unsigned char,
    between [push_off] and [pop_off].  It does nothing else: the ring
    buffer and its cursors are untouched and the lock is not taken. *)
Theorem uart_putc_sync_sends (fuel k : nat) (c : Z) (s : state) :
  panicked s = 0 →
  line_shows false k (dev s) →
  Z.testbit (lsr_in (dev s) (lsr_n (dev s) + k)) 5 = true →
  (k < fuel)%nat →
  uart_putc_sync fuel c s =
    Ret tt (State (uart_tx_buf s) (uart_tx_w s) (uart_tx_r s) (panicked s)
                  (Nat.iter (S k) lsr_read (dev s))
                  (trace s ++ [EvPushOff] ++ poll_events (dev s) (S k)
                     ++ [EvWrite THR (to_uchar c); EvPopOff])).
Proof.
  intros Hp Hbusy Hidle Hfuel. rewrite uart_putc_sync_unfold.
  assert (nonzero (panicked s) = false) as -> by (unfold nonzero; by rewrite Hp).
  erewrite bind_Ret by (by apply (wait_tx_idle_spec fuel k)).
  unfold mbind, M_mbind, M_bind, WriteReg, emit, polled, dev_write. simpl.
  rewrite <- !app_assoc. done.
Qed.

Lemma uart_putc_sync_sends_witness :
  panicked slow_state = 0
  ∧ line_shows false 2 (dev slow_state)
  ∧ Z.testbit (lsr_in (dev slow_state) (lsr_n (dev slow_state) + 2)) 5 = true
  ∧ (2 < 5)%nat
  ∧ uart_putc_sync 5 321 slow_state =
      Ret tt (State (uart_tx_buf slow_state) 3 1 0
                (Nat.iter 3 lsr_read (dev slow_state))
                ([EvPushOff] ++ poll_events (dev slow_state) 3
                   ++ [EvWrite THR 65; EvPopOff])).
Proof.
  assert (line_shows false 2 (dev slow_state)) as H.
  { intros i Hi. simpl. destruct i as [|[|i]]; [done..|lia]. }
  split; [done|]. split; [done|]. split; [done|]. split; [lia|].
  apply (uart_putc_sync_sends 5 2 321 slow_state); [done|done|done|lia].
Defined.

(** X11. Outside a panic, on a line that never shows transmit-idle,
    [uart_putc_sync] never returns: after any number of rounds of its
    wait loop it is still polling the line status register, interrupts
    are still off and nothing was written to the transmit holding
    register. *)
Theorem uart_putc_sync_waits (fuel : nat) (c : Z) (s : state) :
  panicked s = 0 →
  (∀ i, Z.testbit (lsr_in (dev s) (lsr_n (dev s) + i)) 5 = false) →
  uart_putc_sync fuel c s =
    Diverged (State (uart_tx_buf s) (uart_tx_w s) (uart_tx_r s) (panicked s)
                    (Nat.iter fuel lsr_read (dev s))
                    (trace s ++ [EvPushOff] ++ poll_events (dev s) fuel)).
Proof.
  intros Hp Hbusy. rewrite uart_putc_sync_unfold.
  assert (nonzero (panicked s) = false) as -> by (unfold nonzero; by rewrite Hp).
  unfold mbind, M_mbind, M_bind.
  rewrite wait_tx_idle_stuck by (intros i _; apply Hbusy).
  unfold polled. simpl. by rewrite <- !app_assoc.
Qed.

Lemma uart_putc_sync_waits_witness :
  panicked stuck_state = 0
  ∧ (∀ i, Z.testbit (lsr_in (dev stuck_state) (lsr_n (dev stuck_state) + i)) 5 = false)
  ∧ uart_putc_sync 1000 65 stuck_state =
      Diverged (State (uart_tx_buf stuck_state) 0 0 0
                  (Nat.iter 1000 lsr_read (dev stuck_state))
                  ([EvPushOff] ++ poll_events (dev stuck_state) 1000)).
Proof.
  split; [done|]. split; [done|].
  apply (uart_putc_sync_waits 1000 65 stuck_state); done.
Defined.

(** ** Initialisation and the interrupt enable register *)

(** X12. [uart_entxi] is idempotent: after one call a second call finds
    the transmit-interrupt enable bit set, writes no register and leaves
    the device as the first call left it.  Both calls return. *)
Theorem uart_entxi_idempotent (s : state) :
  ∃ s1 s2,
    uart_entxi s = Ret tt s1
    ∧ uart_entxi s1 = Ret tt s2
    ∧ dev s2 = dev s1
    ∧ omap reg_write (trace s2) = omap reg_write (trace s1).
Proof.
  assert (∀ s, Z.testbit (ier (dev s)) 0 = true →
            ∃ s2, uart_entxi s = Ret tt s2 ∧ dev s2 = dev s
              ∧ omap reg_write (trace s2) = omap reg_write (trace s)) as Hset.
  { intros s0 Hb. unfold uart_entxi. munfold. unfold ReadReg. simpl.
    unfold IER_TX_ENABLE at 1. rewrite land_bit, uchar_bit by lia.
    simpl in *. rewrite Hb. simpl. eexists. split; [done|]. simpl.
    rewrite omap_app. simpl. by rewrite app_nil_r. }
  destruct (Z.testbit (ier (dev s)) 0) eqn:Hb.
  - destruct (Hset s Hb) as (s1 & Hs1 & Hd1 & _).
    destruct (Hset s1) as (s2 & Hs2 & Hd2 & Ht2); [by rewrite Hd1|].
    by exists s1, s2.
  - assert (∃ s1, uart_entxi s = Ret tt s1 ∧ Z.testbit (ier (dev s1)) 0 = true)
      as (s1 & Hs1 & Hb1).
    { unfold uart_entxi. munfold. unfold ReadReg. simpl.
      unfold IER_TX_ENABLE at 1. rewrite land_bit, uchar_bit by lia.
      simpl in *. rewrite Hb. simpl. eexists. split; [done|]. done. }
    destruct (Hset s1 Hb1) as (s2 & Hs2 & Hd2 & Ht2).
    by exists s1, s2.
Qed.

(** X13. From any state, [uart_init] returns after writing three
    registers, in this order: the line control register (8 bits, latch
    off), the FIFO control register (0: FIFOs disabled) and the interrupt
    enable register, in which it sets the receive bit alone, so the
    transmit interrupt is off.  It sets both cursors to 0, whatever they
    were, without clearing the array; the pump then finds the buffer
    empty.  A call of [uart_entxi] after it turns both interrupts on. *)
Theorem uart_init_resets (s : state) :
  ∃ s',
    uart_init s = Ret tt s'
    ∧ omap reg_write (trace s') =
        omap reg_write (trace s)
          ++ [(LCR, LCR_EIGHT_BITS); (FCR, 0); (IER, IER_RX_ENABLE)]
    ∧ ier (dev s') = IER_RX_ENABLE
    ∧ Z.land (ier (dev s')) IER_TX_ENABLE = 0
    ∧ uart_tx_w s' = 0 ∧ uart_tx_r s' = 0
    ∧ uart_tx_buf s' = uart_tx_buf s
    ∧ rx_fifo (dev s') = rx_fifo (dev s)
    ∧ (∀ fuel, uart_start (S fuel) s' = Ret tt s')
    ∧ ∃ s'', uart_entxi s' = Ret tt s''
        ∧ ier (dev s'') = Z.lor IER_TX_ENABLE IER_RX_ENABLE.
Proof.
  eexists. split; [done|]. simpl.
  rewrite !omap_app. simpl. rewrite !app_nil_r, <- !app_assoc.
  do 7 (split; [done|]). split.
  - intros fuel. by apply uart_start_empty.
  - eexists. split; done.
Qed.

(** ** The interrupt handler *)

Lemma never_blocks_bind {A B} (m : M A) (f : A → M B) :
  never_blocks m → (∀ a, never_blocks (f a)) → never_blocks (m ≫= f).
Proof.
  intros Hm Hf s s'. unfold mbind, M_mbind, M_bind.
  destruct (m s) as [a s1|s1| |] eqn:Hms; try done.
  - apply Hf.
  - by apply Hm in Hms.
Qed.

Lemma never_blocks_ReadReg reg : never_blocks (ReadReg reg).
Proof. intros s s'. unfold ReadReg. by destruct (dev_read reg (dev s)). Qed.

Lemma never_blocks_start fuel : never_blocks (uart_start fuel).
Proof.
  induction fuel as [|fuel IH]; intros s s'; [done|].
  destruct (uart_start_cases fuel s)
    as [[_ ->]|[(_ & _ & ->)|[(_ & _ & _ & ->)|(c & _ & _ & _ & ->)]]];
    first [done|apply IH].
Qed.

Lemma never_blocks_getchar : never_blocks uart_getchar.
Proof.
  unfold uart_getchar. apply never_blocks_bind; [apply never_blocks_ReadReg|].
  intros lsr. destruct (nonzero _); [apply never_blocks_ReadReg|done].
Qed.

Lemma never_blocks_intr_rx fuel : never_blocks (uart_intr_rx fuel).
Proof.
  induction fuel as [|fuel IH]; [done|]. simpl.
  apply never_blocks_bind; [apply never_blocks_getchar|].
  intros c. destruct (c =? -1); [done|].
  by apply never_blocks_bind.
Qed.

Lemma never_blocks_intr fuel : never_blocks (uart_intr fuel).
Proof.
  unfold uart_intr.
  repeat first
    [ apply never_blocks_getchar | apply never_blocks_intr_rx
    | apply never_blocks_start | apply never_blocks_ReadReg
    | apply never_blocks_bind; [|intros ?]
    | match goal with |- never_blocks (if ?b then _ else _) => destruct b end
    | done ].
Qed.

Lemma intr_frame_trans s1 s2 s3 :
  intr_frame s1 s2 → intr_frame s2 s3 → intr_frame s1 s3.
Proof.
  unfold intr_frame. intros (? & ? & ? & ? & ?) (? & ? & ? & ? & ?).
  repeat split; congruence.
Qed.

Lemma intr_frame_ReadReg reg : preserves intr_frame (ReadReg reg).
Proof.
  intros s. unfold intr_frame, enqueued, ReadReg, dev_read.
  repeat case_match; simplify_eq; simpl;
    rewrite omap_app; simpl; by rewrite app_nil_r.
Qed.

Lemma intr_frame_emit e : buf_stored e = None → preserves intr_frame (emit e).
Proof.
  intros He s. unfold intr_frame, enqueued. simpl.
  rewrite omap_app. simpl. by rewrite He, app_nil_r.
Qed.

Lemma intr_frame_start fuel : preserves intr_frame (uart_start fuel).
Proof.
  intros s. pose proof (uart_start_frame fuel s) as Hf.
  pose proof (pump_frame_ier _ _ Hf) as Hier.
  destruct Hf as (Hb & Hw & Hp & _ & evs & Ht & Hev).
  repeat split; try done.
  unfold enqueued. rewrite Ht, omap_app.
  assert (omap buf_stored evs = []) as ->; [|by rewrite app_nil_r].
  clear Ht. induction Hev as [|e evs He _ IH]; [done|].
  destruct e; simpl in *; done.
Qed.

Lemma intr_frame_getchar : preserves intr_frame uart_getchar.
Proof.
  unfold uart_getchar.
  apply preserves_bind; [apply intr_frame_trans|apply intr_frame_ReadReg|].
  intros lsr. apply preserves_if; [apply intr_frame_ReadReg|].
  by apply preserves_ret.
Qed.

Lemma intr_frame_intr_rx fuel : preserves intr_frame (uart_intr_rx fuel).
Proof.
  induction fuel as [|fuel IH]; [by intros s|]. simpl.
  apply preserves_bind; [apply intr_frame_trans|apply intr_frame_getchar|].
  intros c. apply preserves_if; [by apply preserves_ret|].
  apply preserves_bind; [apply intr_frame_trans|by apply intr_frame_emit|done].
Qed.

(** X14. The interrupt handler is never suspended, and however it ends it
    has stored nothing into the ring buffer: the contents of the array,
    the write cursor and the bytes stored so far are as before, and so
    are the panic flag and the interrupt enable register. *)
Theorem uart_intr_never_sleeps (fuel : nat) (s : state) :
  (∀ s', uart_intr fuel s ≠ Blocked s')
  ∧ uart_tx_buf (state_of (uart_intr fuel s)) = uart_tx_buf s
  ∧ uart_tx_w (state_of (uart_intr fuel s)) = uart_tx_w s
  ∧ enqueued (state_of (uart_intr fuel s)) = enqueued s
  ∧ panicked (state_of (uart_intr fuel s)) = panicked s
  ∧ ier (dev (state_of (uart_intr fuel s))) = ier (dev s).
Proof.
  split; [apply never_blocks_intr|].
  revert s. change (preserves intr_frame (uart_intr fuel)). unfold uart_intr.
  repeat first
    [ apply intr_frame_getchar | apply intr_frame_intr_rx
    | apply intr_frame_start | apply intr_frame_ReadReg
    | apply intr_frame_emit; done
    | apply preserves_bind; [apply intr_frame_trans| |intros ?]
    | apply preserves_if
    | apply preserves_ret; by intros ? ].
Qed.

Lemma reads_only_refl s : reads_only s s.
Proof. repeat split. exists []. by rewrite app_nil_r. Qed.

Lemma reads_only_trans s1 s2 s3 :
  reads_only s1 s2 → reads_only s2 s3 → reads_only s1 s3.
Proof.
  intros (? & ? & ? & ? & ? & evs1 & Ht1 & He1) (? & ? & ? & ? & ? & evs2 & Ht2 & He2).
  repeat split; try congruence.
  exists (evs1 ++ evs2). rewrite Ht2, Ht1, <- app_assoc.
  split; [done|]. by apply Forall_app.
Qed.

Lemma reads_only_ReadReg reg : preserves reads_only (ReadReg reg).
Proof.
  intros s. unfold reads_only, ReadReg, dev_read.
  repeat case_match; simplify_eq; simpl; repeat split;
    eexists; (split; [done|]); by repeat constructor.
Qed.

Lemma reads_only_getchar : preserves reads_only uart_getchar.
Proof.
  unfold uart_getchar.
  apply preserves_bind; [apply reads_only_trans|apply reads_only_ReadReg|].
  intros lsr. apply preserves_if; [apply reads_only_ReadReg|].
  apply preserves_ret, reads_only_refl.
Qed.

(** X15. A spurious interrupt does nothing but read registers.  When
    nothing was received and the line is busy at the next two readings of
    the line status register, [uart_intr] returns, whatever the interrupt
    identification register shows and with no loop iteration at all; it
    has written no register, called neither [consoleintr] nor the pump,
    not taken the lock, and left the ring buffer and both cursors as they
    were. *)
Theorem uart_intr_spurious (fuel : nat) (s : state) :
  rx_fifo (dev s) = [] → line_shows false 2 (dev s) →
  ∃ s' evs,
    uart_intr fuel s = Ret tt s'
    ∧ trace s' = trace s ++ evs
    ∧ Forall (λ e, is_read e = true) evs
    ∧ uart_tx_buf s' = uart_tx_buf s
    ∧ uart_tx_w s' = uart_tx_w s
    ∧ uart_tx_r s' = uart_tx_r s
    ∧ ier (dev s') = ier (dev s).
Proof.
  intros Hrx Hline. rewrite uart_intr_unfold.
  erewrite bind_Ret by apply ReadReg_IIR.
  set (v1 := to_uchar (iir_in (dev s) (iir_n (dev s)))).
  assert (reads_only s (iir_taken s)) as H1.
  { repeat split. eexists. split; [done|]. by repeat constructor. }
  pose proof Hline as [Hnow Hnext]%line_shows_now.
  assert (∃ s2, (if Z.land v1 0x3f =? 0x0c then _ ← uart_getchar; mret tt
                 else mret tt) (iir_taken s) = Ret tt s2
            ∧ reads_only s s2 ∧ rx_fifo (dev s2) = []
            ∧ Z.testbit (lsr_value (dev s2)) 5 = false) as (s2 & Hs2 & H2 & Hrx2 & Hb2).
  { destruct (Z.land v1 0x3f =? 0x0c).
    - exists (start_busy (iir_taken s)).
      erewrite bind_Ret by by apply uart_getchar_none.
      split; [done|]. split; [|split; [done|]].
      + eapply reads_only_trans; [done|].
        repeat split. eexists. split; [done|]. by repeat constructor.
      + apply line_shows_now in Hnext as [Hn _]. by rewrite lsr_value_tx in *.
    - exists (iir_taken s). split; [done|]. split; [done|]. split; [done|].
      by rewrite lsr_value_tx in *. }
  erewrite bind_Ret by apply Hs2.
  erewrite bind_Ret by apply ReadReg_LSR. fold (start_busy s2).
  assert (nonzero (Z.land (to_uchar (lsr_value (dev s2))) LSR_RX_READY) = false) as ->
    by (by rewrite land_rx_ready, lsr_value_rx, Hrx2).
  erewrite bind_Ret by done. unfold uart_intr_tail.
  assert (nonzero (Z.land (to_uchar (lsr_value (dev s2))) LSR_TX_IDLE) = false) as ->
    by (unfold nonzero; by rewrite land_tx_idle, Hb2).
  erewrite bind_Ret by done.
  assert (reads_only s (start_busy s2)) as H3.
  { eapply reads_only_trans; [done|].
    repeat split. eexists. split; [done|]. by repeat constructor. }
  destruct (ReadReg_returns IIR (start_busy s2)) as (v2 & s4 & Hs4 & _).
  pose proof (reads_only_ReadReg IIR (start_busy s2)) as H4. rewrite Hs4 in H4.
  erewrite bind_Ret by done.
  assert (∃ s5, (if nonzero (Z.land v2 UART_IIR_BSY) then _ ← ReadReg USR; mret tt
                 else mret tt) s4 = Ret tt s5 ∧ reads_only s4 s5) as (s5 & -> & H5).
  { destruct (nonzero _).
    - destruct (ReadReg_returns USR s4) as (v3 & s5 & Hs5 & _).
      pose proof (reads_only_ReadReg USR s4) as H5. rewrite Hs5 in H5.
      exists s5. by erewrite bind_Ret by done.
    - exists s4. split; [done|apply reads_only_refl]. }
  destruct (reads_only_trans _ _ _ (reads_only_trans _ _ _ H3 H4) H5)
    as (? & ? & ? & ? & ? & evs & ? & ?).
  by exists s5, evs.
Qed.

Lemma uart_intr_spurious_witness :
  rx_fifo (dev spurious_state) = [] ∧ line_shows false 2 (dev spurious_state)
  ∧ ∃ s' evs,
    uart_intr 0 spurious_state = Ret tt s'
    ∧ trace s' = trace spurious_state ++ evs
    ∧ Forall (λ e, is_read e = true) evs
    ∧ uart_tx_buf s' = uart_tx_buf spurious_state
    ∧ uart_tx_w s' = uart_tx_w spurious_state
    ∧ uart_tx_r s' = uart_tx_r spurious_state
    ∧ ier (dev s') = ier (dev spurious_state).
Proof.
  assert (line_shows false 2 (dev spurious_state)) as H by (by intros i _).
  split; [done|]. split; [done|].
  apply (uart_intr_spurious 0 spurious_state); done.
Defined.

Example uart_intr_spurious_trace :
  trace (state_of (uart_intr 0 spurious_state))
    = [EvRead IIR 0x0c; EvRead LSR 0x40; EvRead LSR 0x40; EvRead IIR 0x07;
       EvRead USR 0].
Proof. by vm_compute. Qed.

(** ** The lock *)

Lemma lock_depth_app evs1 evs2 :
  lock_depth (evs1 ++ evs2) = lock_depth evs1 + lock_depth evs2.
Proof. induction evs1 as [|e evs1 IH]; simpl; [done|]. rewrite IH. lia. Qed.

Lemma locked_access_app d evs1 evs2 :
  locked_access d evs1 → locked_access (d + lock_depth evs1) evs2 →
  locked_access d (evs1 ++ evs2).
Proof.
  revert d. induction evs1 as [|e evs1 IH]; intros d; simpl.
  - intros _. by rewrite Z.add_0_r.
  - intros [He H1] H2. split; [done|]. apply IH; [done|].
    by rewrite <- Z.add_assoc.
Qed.

Lemma locked_bind {A B} d d1 d2 (m : M A) (f : A → M B) :
  locked_spec d d1 m → (∀ a, locked_spec (d + d1) d2 (f a)) →
  locked_spec d (d1 + d2) (m ≫= f).
Proof.
  intros Hm Hf s. destruct (Hm s) as (evs1 & Ht1 & Ha1 & Hd1).
  unfold mbind, M_mbind, M_bind.
  destruct (m s) as [a s1|s1|i s1|s1] eqn:Hms; simpl in *;
    try (exists evs1; split; [done|]; split; [done|]; by intros).
  destruct (Hf a s1) as (evs2 & Ht2 & Ha2 & Hd2).
  exists (evs1 ++ evs2). rewrite Ht2, Ht1, <- app_assoc. split; [done|].
  split.
  - apply locked_access_app; [done|]. by rewrite (Hd1 a s1 eq_refl).
  - intros b s' Hb. rewrite lock_depth_app, (Hd1 a s1 eq_refl). f_equal. eauto.
Qed.

(** A step that leaves the lock alone, followed by the rest. *)
Lemma locked_bind0 {A B} d d2 (m : M A) (f : A → M B) :
  locked_spec d 0 m → (∀ a, locked_spec d d2 (f a)) →
  locked_spec d d2 (m ≫= f).
Proof.
  intros Hm Hf. change d2 with (0 + d2). apply locked_bind; [done|].
  intros a. rewrite Z.add_0_r. apply Hf.
Qed.

Lemma locked_quiet {A} d (m : M A) :
  (∀ s, ∃ evs, trace (state_of (m s)) = trace s ++ evs
          ∧ Forall (λ e, touches_ring e = false ∧ lock_delta e = 0) evs) →
  locked_spec d 0 m.
Proof.
  intros H s. destruct (H s) as (evs & Ht & Hev). exists evs. split; [done|].
  clear Ht. revert d. induction Hev as [|e evs [He1 He2] _ IH]; intros d; [done|].
  simpl. rewrite He1, He2, Z.add_0_r. destruct (IH d) as [Ha Hd].
  split; [done|]. intros a s' Hr. rewrite Z.add_0_l. eauto.
Qed.

Lemma locked_ret {A} d (a : A) : locked_spec d 0 (mret a).
Proof. apply locked_quiet. intros s. exists []. by rewrite app_nil_r. Qed.

Lemma locked_get {A} d (f : state → A) : locked_spec d 0 (get f).
Proof. apply locked_quiet. intros s. exists []. by rewrite app_nil_r. Qed.

Lemma locked_set_w d w : locked_spec d 0 (set_w w).
Proof. apply locked_quiet. intros s. exists []. simpl. by rewrite app_nil_r. Qed.

Lemma locked_set_r d r : locked_spec d 0 (set_r r).
Proof. apply locked_quiet. intros s. exists []. simpl. by rewrite app_nil_r. Qed.

Lemma locked_ReadReg d reg : locked_spec d 0 (ReadReg reg).
Proof.
  apply locked_quiet. intros s. unfold ReadReg.
  destruct (dev_read reg (dev s)). eexists. split; [done|]. by repeat constructor.
Qed.

Lemma locked_WriteReg d reg v : locked_spec d 0 (WriteReg reg v).
Proof.
  apply locked_quiet. intros s. eexists. split; [done|]. by repeat constructor.
Qed.

Lemma locked_emit d e :
  touches_ring e = false → locked_spec d (lock_delta e) (emit e).
Proof.
  intros He s. exists [e]. split; [done|]. simpl. rewrite He.
  split; [done|]. intros. lia.
Qed.

(** A computation that does not return fits any change of the lock. *)
Lemma locked_spin d delta fuel : locked_spec d delta (spin fuel).
Proof.
  intros s. exists []. rewrite spin_diverges. simpl. by rewrite app_nil_r.
Qed.

Lemma locked_sleep {A} d delta : locked_spec d delta (sleep (A:=A)).
Proof. intros s. exists [EvSleep]. by simpl. Qed.

Lemma locked_diverged {A} d delta : locked_spec d delta (λ s, Diverged (A:=A) s).
Proof. intros s. exists []. simpl. by rewrite app_nil_r. Qed.

Lemma locked_buf_store d i c : 0 < d → locked_spec d 0 (buf_store i c).
Proof.
  intros Hd s. unfold buf_store. destruct (in_buf i).
  - eexists [_]. split; [done|]. simpl. by repeat split.
  - exists []. simpl. by rewrite app_nil_r.
Qed.

Lemma locked_buf_load d i : 0 < d → locked_spec d 0 (buf_load i).
Proof.
  intros Hd s. unfold buf_load. destruct (buf_at s i).
  - eexists [_]. split; [done|]. simpl. by repeat split.
  - exists []. simpl. by rewrite app_nil_r.
Qed.

Lemma locked_if {A} d delta (b : bool) (m1 m2 : M A) :
  locked_spec d delta m1 → locked_spec d delta m2 →
  locked_spec d delta (if b then m1 else m2).
Proof. by destruct b. Qed.

Lemma locked_start d fuel : 0 < d → locked_spec d 0 (uart_start fuel).
Proof.
  intros Hd. induction fuel as [|fuel IH]; [apply locked_diverged|]. simpl.
  apply locked_bind0; [apply locked_get|intros w].
  apply locked_bind0; [apply locked_get|intros r].
  apply locked_if; [apply locked_ret|].
  apply locked_bind0; [apply locked_ReadReg|intros lsr].
  apply locked_if; [apply locked_ret|].
  apply locked_bind0; [by apply locked_buf_load|intros c].
  apply locked_bind0; [apply locked_set_r|intros _].
  apply locked_bind0; [apply locked_WriteReg|intros _].
  apply locked_bind0; [by apply (locked_emit d EvWakeup)|intros _].
  apply IH.
Qed.

Lemma locked_getchar d : locked_spec d 0 uart_getchar.
Proof.
  unfold uart_getchar.
  apply locked_bind0; [apply locked_ReadReg|intros lsr].
  apply locked_if; [apply locked_ReadReg|apply locked_ret].
Qed.

Lemma locked_intr_rx d fuel : locked_spec d 0 (uart_intr_rx fuel).
Proof.
  induction fuel as [|fuel IH]; [apply locked_diverged|]. simpl.
  apply locked_bind0; [apply locked_getchar|intros c].
  apply locked_if; [apply locked_ret|].
  apply locked_bind0; [by apply (locked_emit d (EvConsoleIntr c))|intros _].
  apply IH.
Qed.

Lemma locked_wait d fuel : locked_spec d 0 (wait_tx_idle fuel).
Proof.
  induction fuel as [|fuel IH]; [apply locked_diverged|]. simpl.
  apply locked_bind0; [apply locked_ReadReg|intros lsr].
  apply locked_if; [apply IH|apply locked_ret].
Qed.

(** The part of a function between [acquire] and [release]. *)
Lemma locked_section {A} (m : M A) :
  locked_spec 1 0 m →
  locked_spec 0 0 (emit EvAcquire;; m;; emit EvRelease).
Proof.
  intros Hm. change 0 with (1 + (0 + -1)) at 2.
  apply locked_bind; [by apply (locked_emit 0 EvAcquire)|intros _].
  apply locked_bind; [done|intros _].
  by apply (locked_emit (0 + 1 + 0) EvRelease).
Qed.

Lemma locked_putchar_rest fuel : locked_spec 1 (-1) (uart_putchar_rest fuel).
Proof.
  unfold uart_putchar_rest.
  apply locked_bind0; [apply locked_get|intros w].
  apply locked_bind0; [apply locked_set_w|intros _].
  apply locked_bind0; [by apply locked_start|intros _].
  by apply (locked_emit 1 EvRelease).
Qed.

Lemma locked_putchar_loop fuel c : locked_spec 1 (-1) (uart_putchar_loop fuel c).
Proof.
  unfold uart_putchar_loop.
  apply locked_bind0; [apply locked_get|intros w].
  apply locked_bind0; [apply locked_get|intros r].
  apply locked_if; [apply locked_sleep|].
  apply locked_bind0; [by apply locked_buf_store|intros _].
  apply locked_bind0; [apply locked_set_w|intros _].
  apply locked_bind0; [by apply locked_start|intros _].
  by apply (locked_emit 1 EvRelease).
Qed.

Lemma ring_untouched_refl s : ring_untouched s s.
Proof. repeat split. exists []. by rewrite app_nil_r. Qed.

Lemma ring_untouched_trans s1 s2 s3 :
  ring_untouched s1 s2 → ring_untouched s2 s3 → ring_untouched s1 s3.
Proof.
  intros (Hb1 & Hw1 & Hr1 & evs1 & Ht1 & Hf1) (Hb2 & Hw2 & Hr2 & evs2 & Ht2 & Hf2).
  split; [congruence|]. split; [congruence|]. split; [congruence|].
  exists (evs1 ++ evs2). split; [by rewrite Ht2, Ht1, app_assoc|by apply Forall_app].
Qed.

Lemma ring_untouched_emit e s :
  touches_ring e = false → lock_event e = false →
  ring_untouched s (state_of (emit e s)).
Proof. intros. repeat split. exists [e]. split; [done|]. by repeat constructor. Qed.

Lemma ring_untouched_ReadReg reg s : ring_untouched s (state_of (ReadReg reg s)).
Proof.
  unfold ReadReg. destruct (dev_read reg (dev s)). repeat split.
  eexists [_]. split; [done|]. by repeat constructor.
Qed.

Lemma ring_untouched_WriteReg reg v s :
  ring_untouched s (state_of (WriteReg reg v s)).
Proof. repeat split. eexists [_]. split; [done|]. by repeat constructor. Qed.

Lemma ring_untouched_wait fuel : preserves ring_untouched (wait_tx_idle fuel).
Proof.
  induction fuel as [|fuel IH]; [intros s; apply ring_untouched_refl|]. simpl.
  apply preserves_bind;
    [apply ring_untouched_trans|intros s; apply ring_untouched_ReadReg|].
  intros lsr. apply preserves_if; [apply IH|].
  apply preserves_ret, ring_untouched_refl.
Qed.

(** X17. The array [uart_tx_buf] is read and written only while
    [uart_tx_lock] is held.  Entered with the lock free, [uart_putchar]
    and [uart_intr], however they end, make every access to the array
    between an [acquire] and the matching [release], and when they return
    the lock is free again.  A call of [uart_putchar] woken from its sleep
    holds the lock again: the loop it runs once more, and the rest of the
    function after the store, make every access with the lock held and
    return with the lock released.  [uart_putc_sync], [uart_getchar] and
    [uart_entxi] leave the array, its cursors and the lock alone: none of
    their events is an access to the array or an operation on the lock. *)
Theorem ring_accessed_under_lock (fuel : nat) (c : Z) :
  locked_spec 0 0 (uart_putchar fuel c)
  ∧ locked_spec 1 (-1) (uart_putchar_loop fuel c)
  ∧ locked_spec 1 (-1) (uart_putchar_rest fuel)
  ∧ locked_spec 0 0 (uart_intr fuel)
  ∧ preserves ring_untouched (uart_putc_sync fuel c)
  ∧ preserves ring_untouched uart_getchar
  ∧ preserves ring_untouched uart_entxi.
Proof.
  split; [|split; [|split; [|split; [|split; [|split]]]]].
  - unfold uart_putchar. change 0 with (1 + (0 + -1)) at 2.
    apply locked_bind; [by apply (locked_emit 0 EvAcquire)|intros _].
    apply locked_bind0; [apply locked_get|intros p].
    apply locked_bind; [apply locked_if; [apply locked_spin|apply locked_ret]|intros _].
    apply locked_putchar_loop.
  - apply locked_putchar_loop.
  - apply locked_putchar_rest.
  - unfold uart_intr.
    apply locked_bind0; [apply locked_ReadReg|intros v1].
    apply locked_bind0.
    { apply locked_if; [|apply locked_ret].
      apply locked_bind0; [apply locked_getchar|intros _; apply locked_ret]. }
    intros _. apply locked_bind0; [apply locked_ReadReg|intros val].
    apply locked_bind0; [apply locked_if; [apply locked_intr_rx|apply locked_ret]|intros _].
    apply locked_bind0.
    { apply locked_if; [|apply locked_ret].
      by apply locked_section, locked_start. }
    intros _. apply locked_bind0; [apply locked_ReadReg|intros v2].
    apply locked_if; [|apply locked_ret].
    apply locked_bind0; [apply locked_ReadReg|intros _; apply locked_ret].
  - unfold uart_putc_sync.
    apply preserves_bind;
      [apply ring_untouched_trans|intros s; by apply ring_untouched_emit|intros _].
    apply preserves_bind;
      [apply ring_untouched_trans|intros s; apply ring_untouched_refl|intros p].
    apply preserves_bind; [apply ring_untouched_trans| |intros _].
    { apply preserves_if; [|apply preserves_ret, ring_untouched_refl].
      intros s. rewrite spin_diverges. apply ring_untouched_refl. }
    apply preserves_bind;
      [apply ring_untouched_trans|apply ring_untouched_wait|intros _].
    apply preserves_bind;
      [apply ring_untouched_trans|intros s; apply ring_untouched_WriteReg|intros _].
    intros s. by apply ring_untouched_emit.
  - unfold uart_getchar.
    apply preserves_bind;
      [apply ring_untouched_trans|intros s; apply ring_untouched_ReadReg|intros lsr].
    apply preserves_if; [intros s; apply ring_untouched_ReadReg|].
    apply preserves_ret, ring_untouched_refl.
  - unfold uart_entxi.
    apply preserves_bind;
      [apply ring_untouched_trans|intros s; apply ring_untouched_ReadReg|intros v].
    apply preserves_if; [intros s; apply ring_untouched_WriteReg|].
    apply preserves_ret, ring_untouched_refl.
Qed.

(** The pump, called with the lock free, reads the array without it: it
    is for the caller to hold the lock. *)
Example uart_start_needs_lock : ¬ locked_spec 0 0 (uart_start 1).
Proof.
  intros H. destruct (H round_state) as (evs & Ht & Ha & _).
  vm_compute in Ht. subst evs. simpl in Ha.
  destruct Ha as [_ [Hc _]]. specialize (Hc eq_refl). lia.
Qed.

(** ** The transmit side of the interrupt handler *)

Lemma reads_only_transmitted s s' :
  reads_only s s' → transmitted s' = transmitted s ∧ delivered s' = delivered s.
Proof.
  intros (_ & _ & _ & _ & _ & evs & Ht & Hev).
  unfold transmitted, delivered. rewrite Ht, !omap_app.
  assert (omap thr_write evs = [] ∧ omap console_in evs = []) as [-> ->].
  { clear Ht. induction Hev as [|e evs He _ IH]; [done|].
    destruct IH as [IH1 IH2]. destruct e; simpl in *; done. }
  by rewrite !app_nil_r.
Qed.

Lemma uart_intr_bsy_reads s :
  ∃ s', (v2 ← ReadReg IIR;
         if nonzero (Z.land v2 UART_IIR_BSY) then _ ← ReadReg USR; mret tt
         else mret tt) s = Ret tt s'
    ∧ reads_only s s'.
Proof.
  destruct (ReadReg_returns IIR s) as (v2 & s1 & Hs1 & _).
  pose proof (reads_only_ReadReg IIR s) as H1. rewrite Hs1 in H1.
  erewrite bind_Ret by done.
  destruct (nonzero _); [|by exists s1].
  destruct (ReadReg_returns USR s1) as (v3 & s2 & Hs2 & _).
  pose proof (reads_only_ReadReg USR s1) as H2. rewrite Hs2 in H2.
  erewrite bind_Ret by done. exists s2. split; [done|].
  by eapply reads_only_trans.
Qed.

(** X16. A transmit interrupt drains the buffer.  When nothing was
    received, the interrupt identification register does not show the
    receive-timeout code, the line status register shows transmit-idle
    and both cursors are inside the array, [uart_intr] returns having
    sent the bytes found from the read cursor on, going round the array: one per further line status reading that shows
    transmit-idle, up to the write cursor.  The read cursor has advanced
    by the number of bytes sent, modulo 32, and nothing was handed to
    [consoleintr]. *)
Theorem uart_intr_transmits (fuel : nat) (s : state) :
  rx_fifo (dev s) = [] →
  Z.land (to_uchar (iir_in (dev s) (iir_n (dev s)))) 0x3f ≠ 0x0c →
  tx_idle (dev s) = true →
  ring_ok s → (occupancy s < fuel)%nat →
  ∃ s' n,
    uart_intr fuel s = Ret tt s'
    ∧ n = idle_run (lsr_in (dev s)) (S (lsr_n (dev s))) (occupancy s)
    ∧ transmitted s' =
        transmitted s ++ map to_uchar (ring_slice (uart_tx_buf s) (uart_tx_r s) n)
    ∧ uart_tx_r s' = (uart_tx_r s + Z.of_nat n) mod 32
    ∧ uart_tx_w s' = uart_tx_w s
    ∧ uart_tx_buf s' = uart_tx_buf s
    ∧ delivered s' = delivered s.
Proof.
  intros Hrx Hiir Hidle Hok Hfuel. rewrite uart_intr_unfold.
  erewrite bind_Ret by apply ReadReg_IIR.
  apply Z.eqb_neq in Hiir. rewrite Hiir.
  erewrite bind_Ret by done.
  erewrite bind_Ret by apply ReadReg_LSR. fold (start_busy (iir_taken s)).
  set (s3 := start_busy (iir_taken s)).
  change (lsr_value (dev (iir_taken s))) with (lsr_value (dev s)).
  assert (nonzero (Z.land (to_uchar (lsr_value (dev s))) LSR_RX_READY) = false) as ->
    by (by rewrite land_rx_ready, lsr_value_rx, Hrx).
  erewrite bind_Ret by done. unfold uart_intr_tail.
  assert (nonzero (Z.land (to_uchar (lsr_value (dev s))) LSR_TX_IDLE) = true) as ->.
  { unfold nonzero. rewrite land_tx_idle. unfold tx_idle in Hidle. by rewrite Hidle. }
  destruct (uart_start_run fuel (acquired s3)) as (s5 & Hs5 & Hb & Hw & Hr & Ht & Hl & Hn).
  { done. }
  { done. }
  assert ((emit EvAcquire;; uart_start fuel;; emit EvRelease) s3
          = Ret tt (state_of (emit EvRelease s5))) as Htx.
  { erewrite bind_Ret by done. fold (acquired s3). by erewrite bind_Ret by done. }
  erewrite bind_Ret by apply Htx.
  destruct (uart_intr_bsy_reads (state_of (emit EvRelease s5)))
    as (s7 & -> & Hro).
  pose proof (reads_only_transmitted _ _ Hro) as [Ht7 Hd7].
  destruct Hro as (Hb7 & Hw7 & Hr7 & _ & _ & evs7 & Htr7 & Hev7).
  exists s7, (idle_run (lsr_in (dev s)) (S (lsr_n (dev s))) (occupancy s)).
  split; [done|]. split; [done|].
  simpl in Hb, Hw, Hr, Ht, Hb7, Hw7, Hr7.
  change (occupancy (acquired s3)) with (occupancy s) in *.
  assert (transmitted (state_of (emit EvRelease s5)) = transmitted s5) as Hrel.
  { unfold transmitted. simpl. rewrite omap_app. simpl. by rewrite app_nil_r. }
  assert (transmitted (acquired s3) = transmitted s) as Hacq.
  { unfold transmitted. simpl. rewrite !omap_app. simpl. by rewrite !app_nil_r. }
  assert (delivered s5 = delivered s) as Hdel.
  { pose proof (uart_start_frame fuel (acquired s3)) as Hf%pump_frame_rx_quiet.
    rewrite Hs5 in Hf. simpl in Hf. destruct Hf as (_ & _ & Hf). rewrite Hf.
    unfold delivered. simpl. rewrite !omap_app. simpl. by rewrite !app_nil_r. }
  split; [by rewrite Ht7, Hrel, Ht, Hacq|].
  split; [by rewrite Hr7, Hr|]. split; [by rewrite Hw7|]. split; [by rewrite Hb7|].
  rewrite Hd7. unfold delivered in *. simpl. rewrite omap_app. simpl.
  by rewrite app_nil_r.
Qed.

Lemma uart_intr_transmits_witness :
  rx_fifo (dev tx_intr_state) = []
  ∧ Z.land (to_uchar (iir_in (dev tx_intr_state) (iir_n (dev tx_intr_state)))) 0x3f
      ≠ 0x0c
  ∧ tx_idle (dev tx_intr_state) = true
  ∧ ring_ok tx_intr_state ∧ (occupancy tx_intr_state < 10)%nat
  ∧ ∃ s' n,
    uart_intr 10 tx_intr_state = Ret tt s'
    ∧ n = idle_run (lsr_in (dev tx_intr_state)) (S (lsr_n (dev tx_intr_state)))
            (occupancy tx_intr_state)
    ∧ transmitted s' =
        transmitted tx_intr_state
          ++ map to_uchar (ring_slice (uart_tx_buf tx_intr_state)
                             (uart_tx_r tx_intr_state) n)
    ∧ uart_tx_r s' = (uart_tx_r tx_intr_state + Z.of_nat n) mod 32
    ∧ uart_tx_w s' = uart_tx_w tx_intr_state
    ∧ uart_tx_buf s' = uart_tx_buf tx_intr_state
    ∧ delivered s' = delivered tx_intr_state.
Proof.
  assert (ring_ok tx_intr_state) as Hok by (repeat split; simpl; lia).
  assert (occupancy tx_intr_state < 10)%nat as Hfuel by (vm_compute; lia).
  split; [done|]. split; [by vm_compute|]. split; [done|].
  split; [done|]. split; [done|].
  apply (uart_intr_transmits 10 tx_intr_state); [done|by vm_compute|done..].
Defined.

Example uart_intr_transmits_two :
  transmitted (state_of (uart_intr 10 tx_intr_state)) = [130; 131]
  ∧ uart_tx_r (state_of (uart_intr 10 tx_intr_state)) = 0.
Proof. by vm_compute. Qed.
